(** * A shallow embedding of the coding-challenge game server core

    The development follows the Rust sources:
    - [gametraits.rs]: users, turn tokens, move results, the engine interface;
    - [turn_tracker.rs]: the turn rotation shared by the engines;
    - [games/gomoku.rs]: the five-in-a-row engine and its win scan;
    - [games/dumb.rs]: the counter engine;
    - [player_table.rs]: the player registry and the colour bucket;
    - [controller.rs]: the controller event loop.

    Panics ([unwrap] on [None], [todo!]) are modelled by [None] in the
    option monad of stdpp; a function that cannot panic returns its value
    directly. *)

From stdpp Require Import base gmap strings list.
From Stdlib Require Import ZArith Lia.
Open Scope Z_scope.

(* ================================================================== *)
(** ** Colours and users ([gametraits.rs], druid colours) *)

Record Color := mkColor { c_r : Z; c_g : Z; c_b : Z; c_a : Z }.

#[global] Instance Color_eq_dec : EqDecision Color.
Proof. solve_decision. Defined.

(** [druid::Color::rgb8]: an opaque colour. *)
Definition rgb8 (r g b : Z) : Color := mkColor r g b 255.

(** [druid::Color::GRAY], the grey [0x80] of piet. *)
Definition GRAY : Color := rgb8 128 128 128.

Record User := mkUser { name : string; color : Color }.

#[global] Instance User_eq_dec : EqDecision User.
Proof. solve_decision. Defined.

Record TurnToken := mkTurnToken { user : User }.

(* ================================================================== *)
(** ** Usize and i32 arithmetic *)

(** [usize] on a 64-bit target. *)
Definition usize_max : Z := 2 ^ 64 - 1.

(** [v as i32] for a [usize] value [v]: truncation to 32 bits, two's complement. *)
Definition as_i32 (v : Z) : Z :=
  let m := v mod 2 ^ 32 in
  if Z_lt_dec m (2 ^ 31) then m else m - 2 ^ 32.

(** The half-open range [a..b] of Rust. *)
Definition range (a b : Z) : list Z :=
  map (fun k => a + Z.of_nat k) (seq 0 (Z.to_nat (b - a))).

(* ================================================================== *)
(** ** The turn rotation ([turn_tracker.rs]) *)

Record TurnTracker := mkTurnTracker {
  tt_players : list User;
  current_player_index : nat
}.

Definition TurnTracker_new (players : list User) : TurnTracker :=
  mkTurnTracker players 0.

(** [iter().find_position(|u| u.name == username)]. *)
Fixpoint find_position (username : string) (l : list User) : option nat :=
  match l with
  | [] => None
  | u :: l' =>
      if bool_decide (name u = username) then Some 0%nat
      else S <$> find_position username l'
  end.

(** [TurnTracker::remove_player]; the [unwrap] of the failed lookup panics. *)
Definition tt_remove_player (t : TurnTracker) (username : string) : option TurnTracker :=
  i ← find_position username (tt_players t);
  let cur :=
    if Nat.leb i (current_player_index t) then
      if bool_decide (tt_players t = []) then 0%nat
      else if Nat.eqb i 0 then (length (tt_players t) - 1)%nat
      else (current_player_index t - 1)%nat
    else current_player_index t in
  Some (mkTurnTracker
          (filter (fun u => name u ≠ username) (tt_players t)) cur).

(** [TurnTracker::add_player]. *)
Definition tt_add_player (t : TurnTracker) (u : User) : TurnTracker :=
  mkTurnTracker (tt_players t ++ [u]) (current_player_index t).

(** [TurnTracker::advance_player]. *)
Definition tt_advance_player (t : TurnTracker) : TurnTracker * option User :=
  match tt_players t with
  | [] => (t, None)
  | _ =>
      let i := ((current_player_index t + 1) mod length (tt_players t))%nat in
      (mkTurnTracker (tt_players t) i, tt_players t !! i)
  end.

Definition tt_names (t : TurnTracker) : list string := map name (tt_players t).

(* ================================================================== *)
(** ** The five-in-a-row board ([games/gomoku.rs], [struct Board]) *)

Inductive Cell := Empty | Occupied (u : User).

#[global] Instance Cell_eq_dec : EqDecision Cell.
Proof. solve_decision. Defined.

Record Board := mkBoard { cells : list Cell; width : Z; height : Z }.

Definition FirstAndLast := ((Z * Z) * (Z * Z))%type.

Module PlaceResult.
Inductive t := Ok | Win (c : FirstAndLast) | InvalidMove.
End PlaceResult.

(** [Board::at] (and [Board::at_mut], which checks the same bounds);
    the index is in range for every board built by [Game::new], whose
    [cells] has [width * height] entries. *)
Definition Board_at (b : Board) (x y : Z) : option Cell :=
  if bool_decide (x < 0 \/ y < 0 \/ x >= as_i32 (width b) \/ y >= as_i32 (height b))
  then None
  else cells b !! Z.to_nat (y * width b + x).

(** [*cell = Cell::Occupied(user.clone())] through [at_mut]. *)
Definition Board_set (b : Board) (x y : Z) (c : Cell) : Board :=
  mkBoard (<[Z.to_nat (y * width b + x) := c]> (cells b)) (width b) (height b).

(** itertools' [group_by]: maximal runs of consecutive items with equal key. *)
Fixpoint group_by {K A : Type} `{EqDecision K} (l : list (K * A)) : list (list (K * A)) :=
  match l with
  | [] => []
  | e :: l' =>
      match group_by l' with
      | (e' :: g) :: gs =>
          if decide (e.1 = e'.1) then (e :: e' :: g) :: gs
          else [e] :: (e' :: g) :: gs
      | gs => [e] :: gs
      end
  end.

(** [std::cmp::max_by] on the lengths: the second item on a tie. *)
Definition longer_step {A : Type} (acc g' : list A) : list A :=
  if Nat.leb (length acc) (length g') then g' else acc.

(** [Iterator::max_by] on the lengths: the last of the longest items. *)
Definition max_by_len {A : Type} (l : list (list A)) : option (list A) :=
  match l with
  | [] => None
  | g :: gs => Some (fold_left longer_step gs g)
  end.

(** The cells of a scan window, each with its coordinates. *)
Definition scan_window (b : Board) (x_range y_range : list Z) : list (option Cell * (Z * Z)) :=
  map (fun '(x, y) => (Board_at b x y, (x, y))) (zip x_range y_range).

(** The body of [Board::range_contains_win] after the window is formed:
    group, take the longest group, keep it when it has five cells or more. *)
Definition run_of_five {K A : Type} `{EqDecision K} (w : list (K * A)) : option (A * A) :=
  match max_by_len (map (map snd) (group_by w)) with
  | Some a =>
      if Nat.leb 5 (length a) then
        match a with
        | p :: _ => Some (p, List.last a p)
        | [] => None
        end
      else None
  | None => None
  end.

(** [Board::range_contains_win]. *)
Definition range_contains_win (b : Board) (x_range y_range : list Z) : option FirstAndLast :=
  run_of_five (scan_window b x_range y_range).

(** The four scans of [check_for_win_around], in the order of the source:
    vertical, diagonal, horizontal, anti-diagonal. *)
Definition win_scans (x y : Z) : list (list Z * list Z) :=
  [ (repeat x 9, range (y - 4) (y + 5));
    (range (x - 4) (x + 5), range (y - 4) (y + 5));
    (range (x - 4) (x + 5), repeat y 9);
    (range (x - 4) (x + 5), rev (range (y - 4) (y + 5))) ].

Fixpoint first_win (b : Board) (scans : list (list Z * list Z)) : option FirstAndLast :=
  match scans with
  | [] => None
  | (xs, ys) :: rest =>
      match range_contains_win b xs ys with
      | Some c => Some c
      | None => first_win b rest
      end
  end.

(** [Board::check_for_win_around] (the [or_else] chain is [first_win]). *)
Definition check_for_win_around (b : Board) (x y : Z) : PlaceResult.t :=
  match first_win b (win_scans (as_i32 x) (as_i32 y)) with
  | Some coords => PlaceResult.Win coords
  | None => PlaceResult.Ok
  end.

(** [Board::try_place]; [x] and [y] are the [usize] fields of the move. *)
Definition try_place (b : Board) (u : User) (x y : Z) : Board * PlaceResult.t :=
  match Board_at b (as_i32 x) (as_i32 y) with
  | None => (b, PlaceResult.InvalidMove)
  | Some (Occupied _) => (b, PlaceResult.InvalidMove)
  | Some Empty =>
      let b' := Board_set b (as_i32 x) (as_i32 y) (Occupied u) in
      (b', check_for_win_around b' x y)
  end.

Definition is_full (b : Board) : bool :=
  negb (existsb (fun c => bool_decide (c = Empty)) (cells b)).

(* ================================================================== *)
(** ** The engine interface ([gametraits.rs]) *)

(** [PlayerGameState]: the serde_json image of the engine state handed to
    the player; it is kept as the serialized value itself. *)
Inductive PlayerGameState := GS_board (b : Board) | GS_count (num : Z).

(** [PlayerMove]: the line received from the client, by the shape serde_json
    finds in it: [{"move":{"x":x,"y":y}}], [{"move":{"add":n}}], or anything else. *)
Inductive PlayerMove := MoveXY (x y : Z) | MoveAdd (add : Z) | MoveOther.

Record PlayerTurn := mkPlayerTurn { token : TurnToken; state : PlayerGameState }.

Module PlayerMoveResult.
Inductive t :=
| Ok (next : PlayerTurn)
| Win
| Draw
| InvalidMove (next : option PlayerTurn)
| InvalidFormat (next : option PlayerTurn).
End PlayerMoveResult.

(** [trait GameTrait] (painting and the dynamic equality left out).
    A method returns [None] where the Rust method panics. *)
Class GameTrait (G : Type) := {
  player_moves : G -> TurnToken -> PlayerMove -> option (G * PlayerMoveResult.t);
  current_player_disconnected : G -> TurnToken -> option (G * option PlayerTurn);
  try_start_game : G -> option (G * option PlayerTurn);
  player_connected : G -> User -> G;
  player_disconnected : G -> string -> option G
}.

(* ================================================================== *)
(** ** The five-in-a-row engine ([games/gomoku.rs], [struct Game]) *)

Module Gomoku.

Record Game := mkGame {
  board : Board;
  winner : option (User * FirstAndLast);
  players : TurnTracker
}.

Module InternalMoveResult.
Inductive t := InvalidMove | Ok | Win | Draw.
End InternalMoveResult.

(** [Game::new]. *)
Definition Game_new (w h : Z) (players : list User) : Game :=
  mkGame (mkBoard (repeat Empty (Z.to_nat (w * h))) w h) None (TurnTracker_new players).

(** [gametraits::to_player_move::<PlayerMove>]: [x] and [y] are [usize]. *)
Definition to_player_move (m : PlayerMove) : option (Z * Z) :=
  match m with
  | MoveXY x y =>
      if bool_decide (0 <= x <= usize_max /\ 0 <= y <= usize_max) then Some (x, y) else None
  | _ => None
  end.

Definition turn_of (g : Game) (p : User) : PlayerTurn :=
  mkPlayerTurn (mkTurnToken p) (GS_board (board g)).

(** [make_move]. *)
Definition make_move (g : Game) (u : User) (mv : Z * Z) : Game * InternalMoveResult.t :=
  let '(b', r) := try_place (board g) u mv.1 mv.2 in
  let g' := mkGame b' (winner g) (players g) in
  match r with
  | PlaceResult.InvalidMove => (g', InternalMoveResult.InvalidMove)
  | PlaceResult.Ok =>
      (g', if is_full b' then InternalMoveResult.Draw else InternalMoveResult.Ok)
  | PlaceResult.Win coords =>
      (mkGame b' (Some (u, coords)) (players g), InternalMoveResult.Win)
  end.

Definition with_players (g : Game) (t : TurnTracker) : Game :=
  mkGame (board g) (winner g) t.

(** The elimination shared by the two rejection branches of [player_moves]:
    [remove_player], then [advance_player]. *)
Definition eliminate (g : Game) (u : User) : option (Game * option PlayerTurn) :=
  t ← tt_remove_player (players g) (name u);
  let '(t', p) := tt_advance_player t in
  let g' := with_players g t' in
  Some (g', turn_of g' <$> p).

(** [GameTrait::player_moves]. *)
Definition player_moves (g : Game) (tok : TurnToken) (pm : PlayerMove)
  : option (Game * PlayerMoveResult.t) :=
  let u := user tok in
  match to_player_move pm with
  | Some mv =>
      let '(g1, r) := make_move g u mv in
      match r with
      | InternalMoveResult.InvalidMove =>
          '(g2, next) ← eliminate g1 u;
          Some (g2, PlayerMoveResult.InvalidMove next)
      | InternalMoveResult.Ok =>
          let '(t, p) := tt_advance_player (players g1) in
          p ← p;
          let g2 := with_players g1 t in
          Some (g2, PlayerMoveResult.Ok (turn_of g2 p))
      | InternalMoveResult.Win => Some (g1, PlayerMoveResult.Win)
      | InternalMoveResult.Draw => Some (g1, PlayerMoveResult.Draw)
      end
  | None =>
      '(g2, next) ← eliminate g u;
      Some (g2, PlayerMoveResult.InvalidFormat next)
  end.

Definition player_connected (g : Game) (u : User) : Game :=
  with_players g (tt_add_player (players g) u).

Definition player_disconnected (g : Game) (username : string) : option Game :=
  t ← tt_remove_player (players g) username;
  Some (with_players g t).

Definition current_player_disconnected (g : Game) (tok : TurnToken)
  : option (Game * option PlayerTurn) :=
  t ← tt_remove_player (players g) (name (user tok));
  let '(t', p) := tt_advance_player t in
  let g' := with_players g t' in
  Some (g', turn_of g' <$> p).

Definition try_start_game (g : Game) : option (Game * option PlayerTurn) :=
  let '(t', p) := tt_advance_player (players g) in
  let g' := with_players g t' in
  Some (g', turn_of g' <$> p).

(** [GameTrait::reset]. *)
Definition reset (g : Game) (users : list User) : Game :=
  Game_new (width (board g)) (height (board g)) users.

#[global] Instance GameTrait_Gomoku : GameTrait Game := {
  player_moves := player_moves;
  current_player_disconnected := current_player_disconnected;
  try_start_game := try_start_game;
  player_connected := player_connected;
  player_disconnected := player_disconnected
}.

End Gomoku.

(* ================================================================== *)
(** ** The counter engine ([games/dumb.rs]) *)

Module Dumb.

Record Game := mkGame { count : Z; players : TurnTracker }.

Definition Game_new : Game := mkGame 0 (TurnTracker_new []).

(** [gametraits::to_player_move::<PlayerMove>]: [add] is a [u32]. *)
Definition to_player_move (m : PlayerMove) : option Z :=
  match m with
  | MoveAdd a => if bool_decide (0 <= a < 2 ^ 32) then Some a else None
  | _ => None
  end.

Definition turn_of (g : Game) (p : User) : PlayerTurn :=
  mkPlayerTurn (mkTurnToken p) (GS_count (count g)).

(** [make_move]: [num += add] on a [u32]; the overflow check of a debug
    build panics. *)
Definition make_move (g : Game) (add : Z) : option Game :=
  if bool_decide (count g + add < 2 ^ 32) then Some (mkGame (count g + add) (players g))
  else None.

Definition player_moves (g : Game) (tok : TurnToken) (pm : PlayerMove)
  : option (Game * PlayerMoveResult.t) :=
  match to_player_move pm with
  | None =>
      t ← tt_remove_player (players g) (name (user tok));
      let '(t', p) := tt_advance_player t in
      let g' := mkGame (count g) t' in
      Some (g', PlayerMoveResult.InvalidFormat (turn_of g' <$> p))
  | Some add =>
      g1 ← make_move g add;
      let '(t', p) := tt_advance_player (players g1) in
      p ← p;
      let g' := mkGame (count g1) t' in
      Some (g', PlayerMoveResult.Ok (turn_of g' p))
  end.

Definition player_connected (g : Game) (u : User) : Game :=
  mkGame (count g) (tt_add_player (players g) u).

Definition player_disconnected (g : Game) (username : string) : option Game :=
  t ← tt_remove_player (players g) username;
  Some (mkGame (count g) t).

Definition current_player_disconnected (g : Game) (tok : TurnToken)
  : option (Game * option PlayerTurn) :=
  t ← tt_remove_player (players g) (name (user tok));
  let '(t', p) := tt_advance_player t in
  let g' := mkGame (count g) t' in
  Some (g', turn_of g' <$> p).

(** [GameTrait::try_start_game]: [advance_player().unwrap()]. *)
Definition try_start_game (g : Game) : option (Game * option PlayerTurn) :=
  let '(t', p) := tt_advance_player (players g) in
  u ← p;
  let g' := mkGame (count g) t' in
  Some (g', Some (turn_of g' u)).

#[global] Instance GameTrait_Dumb : GameTrait Game := {
  player_moves := player_moves;
  current_player_disconnected := current_player_disconnected;
  try_start_game := try_start_game;
  player_connected := player_connected;
  player_disconnected := player_disconnected
}.

End Dumb.

(* ================================================================== *)
(** ** The player registry ([player_table.rs]) *)

(** An outbound [mpsc::Sender<ControllerToPlayerMsg>], by the identity of its channel. *)
Definition ChanId := nat.

Record PlayerInfo := mkPlayerInfo { pi_name : string; pi_color : Color; tx : ChanId }.

(** The palette of [PaintBucket::new], in vector order. *)
Definition palette : list Color :=
  [ rgb8 0 0 0; rgb8 128 128 128; rgb8 0 0 128; rgb8 255 215 180;
    rgb8 128 128 0; rgb8 170 255 195; rgb8 128 0 0; rgb8 255 250 200;
    rgb8 170 110 40; rgb8 220 190 255; rgb8 0 128 128; rgb8 250 190 212;
    rgb8 210 245 60; rgb8 240 50 230; rgb8 70 240 240; rgb8 145 30 180;
    rgb8 245 130 48; rgb8 0 130 200; rgb8 255 225 25; rgb8 60 180 75;
    rgb8 230 25 75 ].

Record PaintBucket := mkPaintBucket {
  free_paints : list Color;
  taken_paints : gmap string Color
}.

Definition PaintBucket_new : PaintBucket := mkPaintBucket palette ∅.

(** [Vec::pop]: the last element and the rest. *)
Fixpoint vec_pop {A : Type} (l : list A) : option (list A * A) :=
  match l with
  | [] => None
  | [x] => Some ([], x)
  | x :: l' => '(rest, y) ← vec_pop l'; Some (x :: rest, y)
  end.

(** [PaintBucket::get]. *)
Definition PaintBucket_get (b : PaintBucket) (n : string) : Color * PaintBucket :=
  match taken_paints b !! n with
  | Some c => (c, b)
  | None =>
      let '(free', c) :=
        match vec_pop (free_paints b) with
        | Some (rest, c) => (rest, c)
        | None => (free_paints b, GRAY)
        end in
      (c, mkPaintBucket free' (<[n := c]> (taken_paints b)))
  end.

Record PlayerTable := mkPlayerTable {
  pt_players : list PlayerInfo;
  current_index : nat;
  paint_bucket : PaintBucket
}.

Definition PlayerTable_new : PlayerTable := mkPlayerTable [] 0 PaintBucket_new.

(** The loop of [PlayerTable::remove_player]: the kept entries and the
    updated [current_index]. *)
Fixpoint remove_loop (n : string) (index cur : nat) (l : list PlayerInfo)
  : list PlayerInfo * nat :=
  match l with
  | [] => ([], cur)
  | p :: l' =>
      if bool_decide (pi_name p = n) then
        remove_loop n (S index) (if Nat.ltb index cur then cur - 1 else cur)%nat l'
      else
        let '(kept, cur') := remove_loop n (S index) cur l' in (p :: kept, cur')
  end.

(** Modelled from the spec: the controller reads a [bool] from the removal,
    whether an entry of that name was present; the table it leaves is the
    one of [PlayerTable::remove_player]. *)
Definition remove_player (t : PlayerTable) (n : string) : bool * PlayerTable :=
  let '(kept, cur) := remove_loop n 0 (current_index t) (pt_players t) in
  (existsb (fun p => bool_decide (pi_name p = n)) (pt_players t),
   mkPlayerTable kept cur (paint_bucket t)).

(** Modelled from the spec: the controller reads the new entry back from
    the insertion; the table it leaves is the one of
    [PlayerTable::add_new_player] (the stale entry of the name is removed,
    the colour comes from the paint bucket). *)
Definition add_new_player (t : PlayerTable) (n : string) (ch : ChanId)
  : PlayerInfo * PlayerTable :=
  let t1 := (remove_player t n).2 in
  let '(c, bucket) := PaintBucket_get (paint_bucket t1) n in
  let p := mkPlayerInfo n c ch in
  (p, mkPlayerTable (pt_players t1 ++ [p]) (current_index t1) bucket).

(** Modelled from the spec: the lookup by name that the controller calls as
    [PlayerTable::get]; the first entry of that name, if any. *)
Definition pt_get (t : PlayerTable) (n : string) : option PlayerInfo :=
  find (fun p => bool_decide (pi_name p = n)) (pt_players t).

Definition player_info_to_user (p : PlayerInfo) : User := mkUser (pi_name p) (pi_color p).

Definition registered (t : PlayerTable) (n : string) : Prop :=
  n ∈ map pi_name (pt_players t).

(** [PlayerTable::is_empty]. *)
Definition pt_is_empty (t : PlayerTable) : bool := bool_decide (pt_players t = []).

(** [PlayerTable::current]. *)
Definition pt_current (t : PlayerTable) : option PlayerInfo := pt_players t !! current_index t.

(** [PlayerTable::remove_current]: [Vec::remove] panics on an index out of range. *)
Definition pt_remove_current (t : PlayerTable) : option PlayerTable :=
  if bool_decide (current_index t < length (pt_players t))%nat then
    let ps := take (current_index t) (pt_players t) ++ drop (S (current_index t)) (pt_players t) in
    Some (mkPlayerTable ps
            (if Nat.leb (length ps) (current_index t) then 0%nat else current_index t)
            (paint_bucket t))
  else None.

(** [PlayerTable::advance_player]: the table it leaves and [current()]. *)
Definition pt_advance_player (t : PlayerTable) : PlayerTable * option PlayerInfo :=
  let i := S (current_index t) in
  let i := if Nat.leb (length (pt_players t)) i then 0%nat else i in
  let t' := mkPlayerTable (pt_players t) i (paint_bucket t) in
  (t', pt_current t').

(* ================================================================== *)
(** ** The controller ([controller.rs]) *)

Inductive GameMode := Practice | Gating | Competition.

Definition is_gating (m : GameMode) : bool :=
  match m with Gating => true | _ => false end.

(** Durations in milliseconds. *)
Record ControllerInfo := mkControllerInfo {
  connected_users : list User;
  game_mode : GameMode;
  score : gmap string nat;
  turndelay : nat;
  windelay : nat
}.

Definition ControllerInfo_default : ControllerInfo :=
  mkControllerInfo [] Practice ∅ 200 500.

(** [ControllerInfo::add_player_win]. *)
Definition add_player_win (ci : ControllerInfo) (n : string) : ControllerInfo :=
  let sc :=
    match score ci !! n with
    | Some k => <[n := S k]> (score ci)
    | None => <[n := 1%nat]> (score ci)
    end in
  mkControllerInfo (connected_users ci) (game_mode ci) sc (turndelay ci) (windelay ci).

(** [ControllerInfo::reset_scores]. *)
Definition reset_scores (ci : ControllerInfo) : ControllerInfo :=
  mkControllerInfo (connected_users ci) (game_mode ci) ∅ (turndelay ci) (windelay ci).

Definition set_game_mode (ci : ControllerInfo) (m : GameMode) : ControllerInfo :=
  mkControllerInfo (connected_users ci) m (score ci) (turndelay ci) (windelay ci).

Inductive ControllerMsg :=
  | ImConnected (n : string) (ch : ChanId)
  | ImDisconnected (n : string)
  | GoToMode (m : GameMode)
  | ResetGame
  | SetTurnDelay (d : nat)
  | SetWinDelay (d : nat).

(** The one-shot move receiver of an issued turn, by the player it was sent to. *)
Record MoveReceiver := mkMoveReceiver { rx_owner : string }.

(** [PlayerMoveMsg]: the move, and whether the receiver of its one-shot
    error sender [move_err_tx] is still open. *)
Record PlayerMoveMsg := mkPlayerMoveMsg { mov : PlayerMove; move_err_open : bool }.

Inductive Event :=
  | Ev_ControllerMsg (m : ControllerMsg)
  | Ev_Move (pm : PlayerMoveMsg)
  | Ev_PlayerMoveDropped.

Inductive PlayerMovesReturn :=
  | PMR_None
  | NextMoveReceiver (rx : MoveReceiver) (tok : TurnToken)
  | GameOver.

Definition into_return (r : option (MoveReceiver * TurnToken)) : PlayerMovesReturn :=
  match r with
  | Some (rx, tok) => NextMoveReceiver rx tok
  | None => PMR_None
  end.

(** The variables of [controller_loop]. *)
Record Controller (G : Type) := mkController {
  game : G;
  p_move_rx : option MoveReceiver;
  turn_token : option TurnToken;
  players : PlayerTable;
  controller_info : ControllerInfo
}.
Arguments mkController {G}.
Arguments game {G}.
Arguments p_move_rx {G}.
Arguments turn_token {G}.
Arguments players {G}.
Arguments controller_info {G}.

(** The [loop] of [your_turn] ends: each failed delivery removes a player
    from the engine's rotation. It is run on a bound of iterations;
    running out of it counts as divergence, like a panic. *)
Definition dispatch_fuel : nat := 1000.

Section ControllerLoop.
Context {G : Type} `{GameTrait G}.
(** [game_maker], the [GamePtrMaker] the loop was started with. *)
Variable game_maker : list User -> G.
(** Whether the player side of an outbound channel is still open:
    [tx.send(..)] fails on a closed one. *)
Variable alive : ChanId -> bool.

(** [your_turn]. *)
Fixpoint your_turn (fuel : nat) (pt : PlayerTable) (g : G) (tok : TurnToken)
    (st : PlayerGameState) (ci : ControllerInfo)
    : option (G * option (MoveReceiver * TurnToken)) :=
  match fuel with
  | O => None
  | S fuel' =>
      if is_gating (game_mode ci) then Some (g, None)
      else
        new_player ← pt_get pt (name (user tok));
        if alive (tx new_player) then
          Some (g, Some (mkMoveReceiver (name (user tok)), tok))
        else
          '(g', next) ← current_player_disconnected g tok;
          match next with
          | Some t => your_turn fuel' pt g' (token t) (state t) ci
          | None => Some (g', None)
          end
  end.

Definition dispatch := your_turn dispatch_fuel.

(** [send_to_all]: players whose channel is closed are removed. *)
Definition send_to_all (pt : PlayerTable) : PlayerTable :=
  let disconnected := map pi_name (filter (fun p => negb (alive (tx p))) (pt_players pt)) in
  fold_left (fun t n => (remove_player t n).2) disconnected pt.

(** [first_move_new_game]. *)
Definition first_move_new_game (g : G) (ci : ControllerInfo) (pt : PlayerTable)
    : option (G * option (MoveReceiver * TurnToken)) :=
  '(g1, t) ← try_start_game g;
  match t with
  | Some t => dispatch pt g1 (token t) (state t) ci
  | None => Some (g1, None)
  end.

(** The rejection branches of [react_to_player_move]:
    [move_err_tx.send(..).unwrap()] panics when the error receiver is gone. *)
Definition react_rejection (g : G) (ci : ControllerInfo) (pt : PlayerTable)
    (err_open : bool) (next : option PlayerTurn)
    : option (G * ControllerInfo * PlayerTable * PlayerMovesReturn) :=
  if negb err_open then None
  else
    match next with
    | Some t =>
        '(g1, r) ← dispatch pt g (token t) (state t) ci;
        Some (g1, ci, pt, into_return r)
    | None => Some (g, ci, pt, PMR_None)
    end.

(** [react_to_player_move]. *)
Definition react_to_player_move (who_moved : string) (res : PlayerMoveResult.t)
    (g : G) (ci : ControllerInfo) (pt : PlayerTable) (err_open : bool)
    : option (G * ControllerInfo * PlayerTable * PlayerMovesReturn) :=
  match res with
  | PlayerMoveResult.Ok t =>
      '(g1, r) ← dispatch pt g (token t) (state t) ci;
      Some (g1, ci, pt, into_return r)
  | PlayerMoveResult.Draw => Some (g, ci, send_to_all pt, GameOver)
  | PlayerMoveResult.Win =>
      let pt' := send_to_all pt in
      Some (g, add_player_win ci who_moved, pt', GameOver)
  | PlayerMoveResult.InvalidMove next => react_rejection g ci pt err_open next
  | PlayerMoveResult.InvalidFormat next => react_rejection g ci pt err_open next
  end.

(** [option_tuple_to_tuple_options]: the new [(p_move_rx, turn_token)]. *)
Definition split_turn (r : option (MoveReceiver * TurnToken))
    : option MoveReceiver * option TurnToken :=
  match r with
  | Some (rx, tok) => (Some rx, Some tok)
  | None => (None, None)
  end.

Definition with_turn (s : Controller G) (g : G) (r : option (MoveReceiver * TurnToken))
    : Controller G :=
  mkController g (split_turn r).1 (split_turn r).2 (players s) (controller_info s).

(** The arm of [ImConnected]. *)
Definition on_connected (s : Controller G) (n : string) (ch : ChanId) : option (Controller G) :=
  let '(new_player, pt) := add_new_player (players s) n ch in
  let g := player_connected (game s) (player_info_to_user new_player) in
  let s1 := mkController g (p_move_rx s) (turn_token s) pt (controller_info s) in
  match p_move_rx s with
  | None =>
      '(g1, t) ← try_start_game g;
      match t with
      | Some t =>
          '(g2, r) ← dispatch pt g1 (token t) (state t) (controller_info s);
          Some (with_turn s1 g2 r)
      | None => Some (mkController g1 (p_move_rx s) (turn_token s) pt (controller_info s))
      end
  | Some _ => Some s1
  end.

(** The arm of [ImDisconnected]. *)
Definition on_disconnected (s : Controller G) (n : string) : option (Controller G) :=
  match turn_token s with
  | None => Some s
  | Some tok =>
      if bool_decide (name (user tok) = n) then
        '(g1, next) ← current_player_disconnected (game s) tok;
        match next with
        | Some t =>
            '(g2, r) ← dispatch (players s) g1 (token t) (state t) (controller_info s);
            Some (with_turn s g2 r)
        | None => Some (with_turn s g1 None)
        end
      else
        let '(removed, pt) := remove_player (players s) n in
        g1 ← (if removed then player_disconnected (game s) n else Some (game s));
        Some (mkController g1 (p_move_rx s) (Some tok) pt (controller_info s))
  end.

(** The arm of [GoToMode]. *)
Definition on_go_to_mode (s : Controller G) (new_mode : GameMode) : option (Controller G) :=
  let open_gates := is_gating (game_mode (controller_info s)) && negb (is_gating new_mode) in
  let ci := set_game_mode (controller_info s) new_mode in
  let s0 := mkController (game s) (p_move_rx s) (turn_token s) (players s) ci in
  s1 ← (if open_gates then
          '(g1, t) ← try_start_game (game s0);
          match t with
          | Some t =>
              '(g2, r) ← dispatch (players s0) g1 (token t) (state t) ci;
              Some (with_turn s0 g2 r)
          | None => Some (mkController g1 (p_move_rx s0) (turn_token s0) (players s0) ci)
          end
        else Some s0);
  if is_gating (game_mode (controller_info s1)) then
    Some (mkController (game_maker []) None (turn_token s1) (players s1)
            (reset_scores (controller_info s1)))
  else Some s1.

(** The arm of [Event::Move]. *)
Definition on_move (s : Controller G) (pm : PlayerMoveMsg) : option (Controller G) :=
  tok ← turn_token s;
  let who_moved := name (user tok) in
  '(g1, res) ← player_moves (game s) tok (mov pm);
  '(g2, ci, pt, ret) ←
    react_to_player_move who_moved res g1 (controller_info s) (players s) (move_err_open pm);
  match ret with
  | PMR_None => Some (mkController g2 None None pt ci)
  | NextMoveReceiver rx tok' => Some (mkController g2 (Some rx) (Some tok') pt ci)
  | GameOver =>
      let g3 := game_maker (map player_info_to_user (pt_players pt)) in
      '(g4, r) ← first_move_new_game g3 ci pt;
      Some (mkController g4 (split_turn r).1 (split_turn r).2 pt ci)
  end.

(** After every event: [controller_info.connected_users = players.iter()..]. *)
Definition publish (s : Controller G) : Controller G :=
  let ci := controller_info s in
  mkController (game s) (p_move_rx s) (turn_token s) (players s)
    (mkControllerInfo (map player_info_to_user (pt_players (players s)))
       (game_mode ci) (score ci) (turndelay ci) (windelay ci)).

(** One iteration of [controller_loop] on the event it received. *)
Definition controller_step (s : Controller G) (ev : Event) : option (Controller G) :=
  s' ← match ev with
       | Ev_ControllerMsg (ImConnected n ch) => on_connected s n ch
       | Ev_ControllerMsg (ImDisconnected n) => on_disconnected s n
       | Ev_ControllerMsg (GoToMode m) => on_go_to_mode s m
       | Ev_ControllerMsg ResetGame => Some s
       | Ev_ControllerMsg (SetTurnDelay d) =>
           let ci := controller_info s in
           Some (mkController (game s) (p_move_rx s) (turn_token s) (players s)
                   (mkControllerInfo (connected_users ci) (game_mode ci) (score ci) d (windelay ci)))
       | Ev_ControllerMsg (SetWinDelay d) =>
           let ci := controller_info s in
           Some (mkController (game s) (p_move_rx s) (turn_token s) (players s)
                   (mkControllerInfo (connected_users ci) (game_mode ci) (score ci) (turndelay ci) d))
       | Ev_Move pm => on_move s pm
       | Ev_PlayerMoveDropped => Some s
       end;
  Some (publish s').

(** The loop waits on move replies only while [p_move_rx] is [Some]. *)
Definition event_enabled (s : Controller G) (ev : Event) : bool :=
  match ev with
  | Ev_ControllerMsg _ => true
  | Ev_Move _ | Ev_PlayerMoveDropped => bool_decide (is_Some (p_move_rx s))
  end.

(** The state before the first event. *)
Definition controller_init : Controller G :=
  mkController (game_maker []) None None PlayerTable_new ControllerInfo_default.

(** A run of the loop on the events it receives, with every player
    channel open or closed for the whole run; an event it does not wait
    for is not received. [controller_run_dyn] below lets channels close
    between events. *)
Fixpoint controller_run (s : Controller G) (evs : list Event) : option (Controller G) :=
  match evs with
  | [] => Some s
  | ev :: evs' =>
      if event_enabled s ev then
        s' ← controller_step s ev; controller_run s' evs'
      else controller_run s evs'
  end.

End ControllerLoop.

(** A run of the loop in which each event comes with the channels open
    when it is handled: a player's handler may exit, closing its channel,
    between any two events. *)
Fixpoint controller_run_dyn {G : Type} `{GameTrait G} (game_maker : list User -> G)
    (s : Controller G) (evs : list ((ChanId -> bool) * Event)) : option (Controller G) :=
  match evs with
  | [] => Some s
  | (alive, ev) :: evs' =>
      if event_enabled s ev then
        s' ← controller_step game_maker alive s ev; controller_run_dyn game_maker s' evs'
      else controller_run_dyn game_maker s evs'
  end.

(* ================================================================== *)
(** * Definitions used to state the properties *)

(** The bucket invariant: free colours are distinct and none is taken. *)
Definition bucket_inv (b : PaintBucket) : Prop :=
  NoDup (free_paints b) /\
  forall (m : string) (c : Color), taken_paints b !! m = Some c -> c ∉ free_paints b.

(** Tables reachable from [PlayerTable::new] by the registry operations. *)
Inductive reachable_table : PlayerTable -> Prop :=
  | rt_new : reachable_table PlayerTable_new
  | rt_add (t : PlayerTable) (n : string) (ch : ChanId) :
      reachable_table t -> reachable_table (add_new_player t n ch).2
  | rt_remove (t : PlayerTable) (n : string) :
      reachable_table t -> reachable_table (remove_player t n).2.

(** Registry operations: a connect (re-adding replaces) or a removal. *)
Inductive RegOp := RegAdd (n : string) (ch : ChanId) | RegRemove (n : string).

Definition reg_apply (t : PlayerTable) (op : RegOp) : PlayerTable :=
  match op with
  | RegAdd n ch => (add_new_player t n ch).2
  | RegRemove n => (remove_player t n).2
  end.

Definition reg_run (t : PlayerTable) (ops : list RegOp) : PlayerTable :=
  fold_left reg_apply ops t.

(** A maximal run of at least five consecutive entries of key [k] in a
    window, with the payloads of its first and last entries. *)
Definition max_run {K A : Type} (w : list (K * A)) (k : K) (ends : A * A) : Prop :=
  exists pre run suf p q,
    w = pre ++ run ++ suf /\ (5 <= length run)%nat /\
    Forall (fun e => e.1 = k) run /\
    (forall e, last pre = Some e -> e.1 <> k) /\
    (forall e, head suf = Some e -> e.1 <> k) /\
    head run = Some p /\ last run = Some q /\ ends = (p.2, q.2).

(** A scan window holds a maximal run of at least five cells of one owner,
    from coordinates [fl.1] to [fl.2]. *)
Definition owner_run (w : list (option Cell * (Z * Z))) (fl : FirstAndLast) : Prop :=
  exists owner : User, max_run w (Some (Occupied owner)) fl.

(** A group is non-empty, and its entries share one key. *)
Definition const_group {K A : Type} (g : list (K * A)) : Prop :=
  exists k, g <> [] /\ Forall (fun x => x.1 = k) g.

(** Consecutive groups of a grouping have different keys where they meet. *)
Fixpoint chain_ok {K A : Type} (gs : list (list (K * A))) : Prop :=
  match gs with
  | g1 :: ((g2 :: _) as rest) =>
      (forall e1 e2, last g1 = Some e1 -> head g2 = Some e2 -> e1.1 <> e2.1) /\ chain_ok rest
  | _ => True
  end.

(** A player of the five-in-a-row example. *)
Definition player1 : User := mkUser "player1" (rgb8 0 0 0).
Definition player2 : User := mkUser "player2" (rgb8 0 0 0).
Definition player3 : User := mkUser "player3" (rgb8 0 0 0).

(** Successive [make_move] calls of one player, keeping the game. *)
Definition place_all (g : Gomoku.Game) (u : User) (mvs : list (Z * Z)) : Gomoku.Game :=
  fold_left (fun g mv => (Gomoku.make_move g u mv).1) mvs g.

(** The loop run with a 10x10 five-in-a-row game, as [main] starts it. *)
Definition gomoku_maker (users : list User) : Gomoku.Game := Gomoku.Game_new 10 10 users.

(** Every player's channel open. *)
Definition all_alive (ch : ChanId) : bool := true.

(** Only channel [0] closed. *)
Definition chan0_closed (ch : ChanId) : bool := negb (Nat.eqb ch 0).

Definition ev_connect (n : string) (ch : ChanId) : Event := Ev_ControllerMsg (ImConnected n ch).
Definition ev_disconnect (n : string) : Event := Ev_ControllerMsg (ImDisconnected n).
Definition ev_mode (m : GameMode) : Event := Ev_ControllerMsg (GoToMode m).
Definition ev_move (m : PlayerMove) (err_open : bool) : Event :=
  Ev_Move (mkPlayerMoveMsg m err_open).

(** A run of the loop on the five-in-a-row game. *)
Definition gomoku_run (alive : ChanId -> bool) (evs : list Event) : option (Controller Gomoku.Game) :=
  controller_run gomoku_maker alive (controller_init gomoku_maker) evs.

(** A run of the loop on the five-in-a-row game, channels closing between
    events. *)
Definition gomoku_run_dyn (evs : list ((ChanId -> bool) * Event))
    : option (Controller Gomoku.Game) :=
  controller_run_dyn gomoku_maker (controller_init gomoku_maker) evs.

(** Connect events, each with the channels open when it is handled. *)
Definition connect_events (cs : list ((ChanId -> bool) * (string * ChanId)))
    : list ((ChanId -> bool) * Event) :=
  map (fun c => (c.1, ev_connect c.2.1 c.2.2)) cs.

(** Channel [ch] closed, the others as in [alive]. *)
Definition close_chan (alive : ChanId -> bool) (ch : ChanId) (c : ChanId) : bool :=
  negb (Nat.eqb c ch) && alive c.

(** "a" and "b" connect; "a" plays (0,0), "b" plays (0,0) too and is
    rejected; "b"'s handler then exits, closing channel [2], while "a"
    completes five in a row, and the game-over broadcast fails for "b". *)
Definition rejection_then_win : list ((ChanId -> bool) * Event) :=
  [(all_alive, ev_connect "a" 1%nat); (all_alive, ev_connect "b" 2%nat);
   (all_alive, ev_move (MoveXY 0 0) true); (all_alive, ev_move (MoveXY 0 0) true);
   (close_chan all_alive 2%nat, ev_move (MoveXY 1 0) true);
   (close_chan all_alive 2%nat, ev_move (MoveXY 2 0) true);
   (close_chan all_alive 2%nat, ev_move (MoveXY 3 0) true);
   (close_chan all_alive 2%nat, ev_move (MoveXY 4 0) true)].

(** The outstanding turn: a pending move receiver goes with a turn token
    whose user is in the registry. *)
Definition turn_inv {G : Type} (s : Controller G) : Prop :=
  forall rx, p_move_rx s = Some rx ->
  exists tok, turn_token s = Some tok /\ registered (players s) (name (user tok)).

(** After a rejection: the mover has left the rotation, and the turn
    handed on is missing exactly when the rotation is empty. *)
Definition eliminated (g' : Gomoku.Game) (u : User) (next : option PlayerTurn) : Prop :=
  (name u ∉ tt_names (Gomoku.players g')) /\ (next = None <-> tt_players (Gomoku.players g') = []).

(** [k] successive [TurnTracker::advance_player] calls, with the players
    they hand the turn to. *)
Fixpoint tt_advance_n (t : TurnTracker) (k : nat) : list (option User) :=
  match k with
  | O => []
  | S k' => let '(t', p) := tt_advance_player t in p :: tt_advance_n t' k'
  end.

(** The number of occupied cells of a board. *)
Definition stones (b : Board) : nat := length (filter (fun c => c ≠ Empty) (cells b)).

(* ================================================================== *)
(** * Properties *)

(** ** The turn rotation panics on an absent name (C9) *)

Lemma find_position_None (n : string) (l : list User) :
  find_position n l = None <-> n ∉ map name l.
Proof.
  induction l as [|u l IH]; simpl.
  - split; [intros _; apply not_elem_of_nil | done].
  - rewrite not_elem_of_cons. case_bool_decide as Hu.
    + split; [done | intros [Hn _]; congruence].
    + destruct (find_position n l) eqn:E; simpl.
      * split; [done | intros [_ Hn]; apply IH in Hn; discriminate].
      * split; [intros _; split; [congruence | apply IH; done] | done].
Qed.

Lemma tt_remove_player_None (t : TurnTracker) (n : string) :
  tt_remove_player t n = None <-> n ∉ tt_names t.
Proof.
  unfold tt_remove_player, tt_names. rewrite <- find_position_None.
  destruct (find_position n (tt_players t)); simpl; split; done.
Qed.

(** C9: [TurnTracker::remove_player] panics exactly when the name is not in
    the rotation, so [player_disconnected] and [current_player_disconnected]
    of both engines panic exactly when the named user is not in the rotation. *)
Theorem remove_player_requires_member :
  (forall (t : TurnTracker) (n : string), tt_remove_player t n = None <-> n ∉ tt_names t) /\
  (forall (g : Gomoku.Game) (n : string),
      Gomoku.player_disconnected g n = None <-> n ∉ tt_names (Gomoku.players g)) /\
  (forall (g : Gomoku.Game) (tok : TurnToken),
      Gomoku.current_player_disconnected g tok = None <->
      name (user tok) ∉ tt_names (Gomoku.players g)) /\
  (forall (g : Dumb.Game) (n : string),
      Dumb.player_disconnected g n = None <-> n ∉ tt_names (Dumb.players g)) /\
  (forall (g : Dumb.Game) (tok : TurnToken),
      Dumb.current_player_disconnected g tok = None <->
      name (user tok) ∉ tt_names (Dumb.players g)).
Proof.
  split; [exact tt_remove_player_None |].
  split; [|split; [|split]]; intros g a; rewrite <- tt_remove_player_None;
    unfold Gomoku.player_disconnected, Gomoku.current_player_disconnected,
      Dumb.player_disconnected, Dumb.current_player_disconnected;
    destruct (tt_remove_player _ _) as [t|]; simpl; try (split; done);
    try (destruct (tt_advance_player t); simpl; split; done).
Qed.

(** ** The counter engine's [try_start_game] (C10) *)

Lemma tt_advance_player_Some (t : TurnTracker) :
  tt_players t <> [] ->
  exists u, (tt_advance_player t).2 = Some u /\ u ∈ tt_players t.
Proof.
  intros Hne. unfold tt_advance_player.
  destruct (tt_players t) as [|p ps] eqn:E; [done |]. simpl.
  destruct ((p :: ps) !! ((current_player_index t + 1) mod S (length ps))%nat) as [u|] eqn:L.
  - exists u. split; [done |]. by eapply list_elem_of_lookup_2.
  - exfalso. apply lookup_ge_None in L. simpl in L.
    pose proof (Nat.mod_upper_bound (current_player_index t + 1) (S (length ps))). lia.
Qed.

(** C10: the counter engine's [try_start_game] panics on an empty rotation
    and otherwise returns a turn for the player the rotation advances to. *)
Theorem dumb_try_start_game_spec (g : Dumb.Game) :
  (tt_players (Dumb.players g) = [] <-> Dumb.try_start_game g = None) /\
  (tt_players (Dumb.players g) <> [] ->
   exists u g', (tt_advance_player (Dumb.players g)).2 = Some u /\
     u ∈ tt_players (Dumb.players g) /\
     Dumb.try_start_game g = Some (g', Some (Dumb.turn_of g' u))).
Proof.
  unfold Dumb.try_start_game. split.
  - unfold tt_advance_player. destruct (tt_players (Dumb.players g)) as [|p ps] eqn:E.
    + simpl. split; done.
    + simpl. split; [done |].
      destruct ((p :: ps) !! _) as [u|] eqn:L; simpl; [done |].
      exfalso. apply lookup_ge_None in L. simpl in L.
      pose proof (Nat.mod_upper_bound (current_player_index (Dumb.players g) + 1) (S (length ps))).
      lia.
  - intros Hne. destruct (tt_advance_player_Some _ Hne) as [u [Hu Hin]].
    destruct (tt_advance_player (Dumb.players g)) as [t' p] eqn:E. simpl in Hu. subst p.
    exists u, (Dumb.mkGame (Dumb.count g) t'). split; [reflexivity |]. split; [done |].
    reflexivity.
Qed.

(** ** Colour assignment (C8) *)

Lemma vec_pop_Some {A : Type} (l rest : list A) (x : A) :
  vec_pop l = Some (rest, x) -> l = rest ++ [x].
Proof.
  revert rest. induction l as [|a l IH]; intros rest H; simpl in H; [done |].
  destruct l as [|b l'].
  - by inversion H.
  - destruct (vec_pop (b :: l')) as [[r y]|] eqn:E; simpl in H; [| done].
    inversion H; subst. by rewrite (IH r eq_refl).
Qed.

Lemma vec_pop_None {A : Type} (l : list A) : vec_pop l = None -> l = [].
Proof.
  induction l as [|a l IH]; simpl; [done |].
  destruct l as [|b l']; [done |].
  destruct (vec_pop (b :: l')) as [[r y]|]; simpl; [done |].
  intros H. specialize (IH eq_refl). done.
Qed.

Lemma bucket_inv_new : bucket_inv PaintBucket_new.
Proof.
  split.
  - unfold PaintBucket_new, palette. simpl.
    apply (bool_decide_unpack _). vm_compute. reflexivity.
  - intros m c H. simpl in H. rewrite lookup_empty in H. done.
Qed.

Lemma PaintBucket_get_inv (b : PaintBucket) (n : string) :
  bucket_inv b -> bucket_inv (PaintBucket_get b n).2.
Proof.
  intros [Hnd Hdis]. unfold PaintBucket_get.
  destruct (taken_paints b !! n) as [c|] eqn:Hn; [split; done |].
  destruct (vec_pop (free_paints b)) as [[rest c]|] eqn:Hp.
  - apply vec_pop_Some in Hp. rewrite Hp in Hnd, Hdis. simpl.
    apply NoDup_app in Hnd as (Hrest & Hsep & _).
    split; [done |]. intros m c' Hm.
    destruct (decide (m = n)) as [->|Hne].
    + simpl in Hm. rewrite lookup_insert_eq in Hm. inversion Hm; subst c'.
      intros Hin. apply (Hsep c Hin). by apply list_elem_of_singleton.
    + simpl in Hm. rewrite lookup_insert_ne in Hm by done.
      intros Hin. apply (Hdis m c' Hm). apply elem_of_app. by left.
  - apply vec_pop_None in Hp. simpl. rewrite Hp. split.
    + constructor.
    + intros m c' _. apply not_elem_of_nil.
Qed.

Lemma PaintBucket_get_spec (b : PaintBucket) (n : string) :
  bucket_inv b ->
  let '(c, b') := PaintBucket_get b n in
  taken_paints b' !! n = Some c /\
  (forall m c0, taken_paints b !! m = Some c0 -> taken_paints b' !! m = Some c0) /\
  (forall c0, taken_paints b !! n = Some c0 -> c = c0) /\
  (taken_paints b !! n = None -> free_paints b <> [] ->
     c ∈ free_paints b /\ forall m c0, taken_paints b !! m = Some c0 -> c0 <> c) /\
  (taken_paints b !! n = None -> free_paints b = [] -> c = GRAY).
Proof.
  intros [Hnd Hdis]. unfold PaintBucket_get.
  destruct (taken_paints b !! n) as [c|] eqn:Hn.
  - split; [done |]. split; [done |]. split; [intros c0 H; congruence |].
    split; intros; done.
  - destruct (vec_pop (free_paints b)) as [[rest c]|] eqn:Hp.
    + pose proof (vec_pop_Some _ _ _ Hp) as Hl. simpl.
      split; [by rewrite lookup_insert_eq |].
      split.
      { intros m c0 Hm. rewrite lookup_insert_ne; [done |]. intros ->. congruence. }
      split; [intros c0 H; done |].
      split; [| intros _ Hf; rewrite Hf in Hl; by destruct rest].
      intros _ _. split.
      * rewrite Hl. apply elem_of_app. right. by apply list_elem_of_singleton.
      * intros m c0 Hm ->. apply (Hdis m c Hm). rewrite Hl.
        apply elem_of_app. right. by apply list_elem_of_singleton.
    + pose proof (vec_pop_None _ Hp) as Hl. simpl.
      split; [by rewrite lookup_insert_eq |].
      split.
      { intros m c0 Hm. rewrite lookup_insert_ne; [done |]. intros ->. congruence. }
      split; [intros c0 H; done |].
      split; [intros _ Hf; done | done].
Qed.

Lemma reachable_bucket_inv (t : PlayerTable) :
  reachable_table t -> bucket_inv (paint_bucket t).
Proof.
  induction 1 as [|t n ch _ IH|t n _ IH].
  - apply bucket_inv_new.
  - unfold add_new_player.
    destruct (remove_player t n) as [r t1] eqn:Er.
    assert (paint_bucket t1 = paint_bucket t) as Hb.
    { unfold remove_player in Er. destruct (remove_loop _ _ _ _). by inversion Er. }
    simpl. pose proof (PaintBucket_get_inv (paint_bucket t1) n) as Hg.
    destruct (PaintBucket_get (paint_bucket t1) n) as [c b']. simpl in *.
    apply Hg. by rewrite Hb.
  - unfold remove_player. destruct (remove_loop _ _ _ _). exact IH.
Qed.

Lemma remove_player_bucket (t : PlayerTable) (n : string) :
  paint_bucket (remove_player t n).2 = paint_bucket t.
Proof. unfold remove_player. by destruct (remove_loop _ _ _ _). Qed.

Lemma add_new_player_bucket (t : PlayerTable) (n : string) (ch : ChanId) :
  paint_bucket (add_new_player t n ch).2 = (PaintBucket_get (paint_bucket t) n).2 /\
  pi_color (add_new_player t n ch).1 = (PaintBucket_get (paint_bucket t) n).1.
Proof.
  unfold add_new_player. rewrite remove_player_bucket.
  by destruct (PaintBucket_get (paint_bucket t) n).
Qed.

Lemma reg_run_reachable (t : PlayerTable) (ops : list RegOp) :
  reachable_table t -> reachable_table (reg_run t ops).
Proof.
  revert t. induction ops as [|op ops IH]; intros t Ht; simpl; [done |].
  apply IH. destruct op; simpl; constructor; done.
Qed.

Lemma reg_run_taken (t : PlayerTable) (ops : list RegOp) (m : string) (c : Color) :
  reachable_table t ->
  taken_paints (paint_bucket t) !! m = Some c ->
  taken_paints (paint_bucket (reg_run t ops)) !! m = Some c.
Proof.
  revert t. induction ops as [|op ops IH]; intros t Ht Hm; simpl; [done |].
  apply IH; [destruct op; simpl; constructor; done |].
  destruct op as [n ch|n]; simpl.
  - destruct (add_new_player_bucket t n ch) as [-> _].
    pose proof (PaintBucket_get_spec (paint_bucket t) n (reachable_bucket_inv t Ht)) as Hs.
    destruct (PaintBucket_get (paint_bucket t) n) as [c' b']. simpl.
    destruct Hs as (_ & Hkeep & _). by apply Hkeep.
  - by rewrite remove_player_bucket.
Qed.

(** C8: colour assignment.  For a registry reachable from [PlayerTable::new],
    connecting [n]: (1) a name that already holds a colour gets it again;
    (2) a new name gets a colour no name holds, while free palette colours
    remain; (3) once the palette is exhausted a new name gets [GRAY], the one
    fallback colour; (4) the colour given to [n] is the colour [n] gets on
    every later connect, whatever connects and removals happen in between. *)
Theorem paint_bucket_assignment (t : PlayerTable) (n : string) (ch : ChanId) :
  reachable_table t ->
  let '(p, t') := add_new_player t n ch in
  let b := paint_bucket t in
  (forall c0, taken_paints b !! n = Some c0 -> pi_color p = c0) /\
  (taken_paints b !! n = None -> free_paints b <> [] ->
     forall m c0, taken_paints b !! m = Some c0 -> c0 <> pi_color p) /\
  (taken_paints b !! n = None -> free_paints b = [] -> pi_color p = GRAY) /\
  (forall (ops : list RegOp) (ch' : ChanId),
     pi_color (add_new_player (reg_run t' ops) n ch').1 = pi_color p).
Proof.
  intros Ht.
  pose proof (add_new_player_bucket t n ch) as [Hb Hc].
  pose proof (PaintBucket_get_spec (paint_bucket t) n (reachable_bucket_inv t Ht)) as Hs.
  destruct (add_new_player t n ch) as [p t'] eqn:Ea. simpl in Hb, Hc.
  destruct (PaintBucket_get (paint_bucket t) n) as [c b'] eqn:Eg. simpl in Hb, Hc.
  destruct Hs as (Hnow & _ & Hold & Hfresh & Hgray).
  split; [intros c0 H0; rewrite Hc; by apply Hold |].
  split; [intros H0 H1; rewrite Hc; apply Hfresh; done |].
  split; [intros H0 H1; rewrite Hc; by apply Hgray |].
  intros ops ch'.
  assert (reachable_table t') as Ht'.
  { replace t' with (add_new_player t n ch).2 by (by rewrite Ea). by constructor. }
  assert (taken_paints (paint_bucket (reg_run t' ops)) !! n = Some c) as Hk.
  { apply reg_run_taken; [done |]. by rewrite Hb. }
  pose proof (PaintBucket_get_spec _ n (reachable_bucket_inv _ (reg_run_reachable t' ops Ht')))
    as Hs.
  destruct (add_new_player_bucket (reg_run t' ops) n ch') as [_ ->].
  destruct (PaintBucket_get (paint_bucket (reg_run t' ops)) n) as [c2 b2]. simpl.
  destruct Hs as (_ & _ & Hold2 & _). rewrite Hc. by apply Hold2.
Qed.

(** ** Grouping of a scan window (the [group_by] of [range_contains_win]) *)

Section GroupBy.
Context {K A : Type} `{EqDecision K}.
Implicit Types (l : list (K * A)) (e : K * A) (gs : list (list (K * A))).

Lemma group_by_cons_shape e l : exists g gs, group_by (e :: l) = (e :: g) :: gs.
Proof.
  simpl. destruct (group_by l) as [|[|e' g] gs]; eauto.
  case_decide; eauto.
Qed.

Lemma group_by_cons_eq e l :
  group_by (e :: l) =
  match group_by l with
  | (e' :: g) :: gs =>
      if decide (e.1 = e'.1) then (e :: e' :: g) :: gs else [e] :: (e' :: g) :: gs
  | gs => [e] :: gs
  end.
Proof. reflexivity. Qed.

Lemma group_by_concat l : concat (group_by l) = l.
Proof.
  induction l as [|e l IH]; [done |]. simpl.
  destruct (group_by l) as [|[|e' g] gs] eqn:E; simpl in IH |- *.
  - by rewrite <- IH.
  - by rewrite IH.
  - case_decide; simpl; by rewrite IH.
Qed.

Lemma group_by_const l : Forall const_group (group_by l).
Proof.
  induction l as [|e l IH]; simpl; [constructor |].
  destruct (group_by l) as [|[|e' g] gs] eqn:E.
  - repeat constructor. exists e.1. split; [done | by constructor].
  - constructor; [| done]. exists e.1. split; [done | by constructor].
  - apply Forall_cons in IH as [[k [_ Hk]] Hgs].
    case_decide as Hee.
    + constructor; [| done]. exists k. split; [done |].
      constructor; [| done]. apply Forall_cons in Hk as [Hk _]. congruence.
    + constructor; [| constructor; [exists k; done | done]].
      exists e.1. split; [done | by constructor].
Qed.

Lemma group_by_chain l : chain_ok (group_by l).
Proof.
  induction l as [|e l IH]; simpl; [done |].
  destruct (group_by l) as [|[|e' g] gs] eqn:E; simpl.
  - done.
  - split; [intros e1 e2 _ H; done | done].
  - case_decide as Hee.
    + destruct gs as [|g2 gs']; [done |]. simpl in IH |- *.
      destruct IH as [Hadj Hrest]. split; [| done].
      intros e1 e2 Hl Hh. apply (Hadj e1 e2); [| done].
      try rewrite last_cons_cons in Hl; done.
    + split; [| done]. intros e1 e2 Hl Hh. simpl in Hl, Hh.
      inversion Hl; inversion Hh; subst. done.
Qed.

Lemma const_group_singleton_run (g : list (K * A)) (k : K) :
  g <> [] -> Forall (fun x => x.1 = k) g -> group_by g = [g].
Proof.
  induction g as [|e g IH]; intros Hne Hk; [done |].
  apply Forall_cons in Hk as [He Hk]. simpl.
  destruct g as [|e' g'].
  - done.
  - rewrite IH by done. apply Forall_cons in Hk as [He' _].
    rewrite decide_True by congruence. done.
Qed.

Lemma group_by_app l1 l2 :
  (forall e1 e2, last l1 = Some e1 -> head l2 = Some e2 -> e1.1 <> e2.1) ->
  group_by (l1 ++ l2) = group_by l1 ++ group_by l2.
Proof.
  induction l1 as [|e l1 IH]; intros Hb; [done |].
  destruct l1 as [|e0 l1'].
  - simpl. destruct l2 as [|e2 l2']; [done |].
    destruct (group_by_cons_shape e2 l2') as (g & gs & Eg). rewrite Eg.
    rewrite decide_False; [done |]. apply (Hb e e2); done.
  - change ((e :: e0 :: l1') ++ l2) with (e :: ((e0 :: l1') ++ l2)).
    rewrite (group_by_cons_eq e ((e0 :: l1') ++ l2)), (group_by_cons_eq e (e0 :: l1')).
    rewrite IH.
    2: { intros e1 e2 Hl Hh. apply (Hb e1 e2); [| done].
         rewrite last_cons_cons. done. }
    destruct (group_by_cons_shape e0 l1') as (g & gs & Eg). rewrite Eg.
    simpl. case_decide; done.
Qed.

Lemma group_by_max_run pre run suf (k : K) :
  run <> [] -> Forall (fun e => e.1 = k) run ->
  (forall e, last pre = Some e -> e.1 <> k) ->
  (forall e, head suf = Some e -> e.1 <> k) ->
  group_by (pre ++ run ++ suf) = group_by pre ++ run :: group_by suf.
Proof.
  intros Hne Hk Hpre Hsuf.
  destruct run as [|r run']; [done |].
  rewrite group_by_app.
  2: { intros e1 e2 Hl Hh. simpl in Hh. inversion Hh; subst.
       apply Forall_cons in Hk as [Hr _]. rewrite Hr. by apply Hpre. }
  rewrite group_by_app.
  2: { intros e1 e2 Hl Hh. apply last_Some_elem_of in Hl.
       rewrite Forall_forall in Hk. rewrite (Hk e1 Hl). intros Heq.
       apply (Hsuf e2 Hh). done. }
  rewrite (const_group_singleton_run (r :: run') k) by done. done.
Qed.

Lemma chain_split gs1 g gs2 :
  chain_ok (gs1 ++ g :: gs2) -> Forall const_group (gs1 ++ g :: gs2) ->
  (forall e1 e2, last (concat gs1) = Some e1 -> head g = Some e2 -> e1.1 <> e2.1) /\
  (forall e1 e2, last g = Some e1 -> head (concat gs2) = Some e2 -> e1.1 <> e2.1).
Proof.
  induction gs1 as [|g1 gs1 IH]; intros Hc Hf.
  - split; [intros e1 e2 Hl; done |].
    destruct gs2 as [|g2 gs2']; [intros e1 e2 _ Hh; done |].
    simpl in Hc. destruct Hc as [Hadj _].
    apply Forall_cons in Hf as [_ Hf]. apply Forall_cons in Hf as [[k [Hne _]] _].
    intros e1 e2 Hl Hh. simpl in Hh. rewrite head_app in Hh.
    destruct g2 as [|x g2']; [done |]. simpl in Hh. by apply (Hadj e1 e2).
  - simpl in Hf. apply Forall_cons in Hf as [[k1 [Hne1 _]] Hf].
    assert (chain_ok (gs1 ++ g :: gs2)) as Hc'.
    { simpl in Hc. destruct (gs1 ++ g :: gs2) eqn:E; [done | apply Hc]. }
    destruct (IH Hc' Hf) as [IHl IHr]. split; [| done].
    intros e1 e2 Hl Hh. simpl in Hl. rewrite last_app in Hl.
    destruct (last (concat gs1)) as [x|] eqn:Ex.
    + inversion Hl; subst. by apply IHl.
    + destruct gs1 as [|g1' gs1'].
      * simpl in Hc. destruct Hc as [Hadj _]. by apply (Hadj e1 e2).
      * exfalso. apply last_None in Ex. simpl in Ex.
        apply app_eq_nil in Ex as [Ex _]. subst g1'.
        apply Forall_cons in Hf as [[k' [Hne' _]] _]. done.
Qed.
End GroupBy.

Section LongestRun.
Context {K A : Type} `{EqDecision K}.

Lemma fold_longer_in {B : Type} (G : list (list B)) (acc : list B) :
  fold_left longer_step G acc ∈ acc :: G.
Proof.
  revert acc. induction G as [|g G IH]; intros acc; simpl; [by left |].
  specialize (IH (longer_step acc g)). apply elem_of_cons in IH as [->|IH].
  - unfold longer_step. destruct (Nat.leb _ _); rewrite !elem_of_cons; auto.
  - rewrite !elem_of_cons; auto.
Qed.

Lemma fold_longer_keep {B : Type} (G : list (list B)) (acc : list B) :
  (forall g, g ∈ G -> (length g < length acc)%nat) -> fold_left longer_step G acc = acc.
Proof.
  revert acc. induction G as [|g G IH]; intros acc Hlt; simpl; [done |].
  unfold longer_step at 2.
  assert (Nat.leb (length acc) (length g) = false) as ->.
  { apply Nat.leb_gt. apply Hlt. by left. }
  apply IH. intros g' Hg'. apply Hlt. by right.
Qed.

Lemma max_by_len_in {B : Type} (G : list (list B)) (a : list B) :
  max_by_len G = Some a -> a ∈ G.
Proof.
  destruct G as [|g G]; simpl; [done |]. intros [= <-]. apply fold_longer_in.
Qed.

Lemma max_by_len_unique {B : Type} (G1 G2 : list (list B)) (g : list B) :
  (forall g', g' ∈ G1 ++ G2 -> (length g' < length g)%nat) ->
  max_by_len (G1 ++ g :: G2) = Some g.
Proof.
  intros Hlt. destruct G1 as [|h G1]; simpl.
  - f_equal. apply fold_longer_keep. intros g' Hg'. apply Hlt. done.
  - f_equal. rewrite fold_left_app. simpl.
    assert (longer_step (fold_left longer_step G1 h) g = g) as ->.
    { pose proof (fold_longer_in G1 h) as Hin.
      assert (length (fold_left longer_step G1 h) < length g)%nat as Hl.
      { apply Hlt. apply elem_of_app. left. done. }
      unfold longer_step at 1. destruct (Nat.leb _ _) eqn:E; [done |].
      apply Nat.leb_gt in E. lia. }
    apply fold_longer_keep. intros g' Hg'. apply Hlt.
    apply elem_of_app. by right.
Qed.

Lemma length_le_concat {B : Type} (gs : list (list B)) (g : list B) :
  g ∈ gs -> (length g <= length (concat gs))%nat.
Proof.
  intros Hin. apply list_elem_of_split in Hin as (G1 & G2 & ->).
  rewrite concat_app. simpl. rewrite !length_app. lia.
Qed.

Lemma last_map_snd (l : list (K * A)) (q : K * A) (d : A) :
  last l = Some q -> List.last (map snd l) d = q.2.
Proof.
  induction l as [|x l IH]; [done |]. destruct l as [|y l'].
  - simpl. by intros [= ->].
  - rewrite last_cons_cons. intros Hq. simpl map. rewrite <- (IH Hq). done.
Qed.

(** A maximal run of five or more in a nine-entry window is what
    [run_of_five] reports. *)
Lemma run_of_five_complete (w : list (K * A)) (k : K) (ends : A * A) :
  length w = 9%nat -> max_run w k ends -> run_of_five w = Some ends.
Proof.
  intros Hlen (pre & run & suf & p & q & Hw & H5 & Hk & Hpre & Hsuf & Hp & Hq & ->).
  assert (run <> []) as Hne by (intros ->; simpl in H5; lia).
  assert (length pre + length run + length suf = 9)%nat as Hsum.
  { rewrite <- Hlen, Hw, !length_app. lia. }
  unfold run_of_five. rewrite Hw, (group_by_max_run pre run suf k) by done.
  rewrite map_app. simpl map.
  rewrite max_by_len_unique.
  2: { intros g' Hg'. rewrite length_map.
       apply elem_of_app in Hg' as [Hg'|Hg']; apply list_elem_of_In in Hg';
         apply in_map_iff in Hg' as (g0 & <- & Hg0); apply list_elem_of_In in Hg0;
         rewrite length_map; apply length_le_concat in Hg0;
         rewrite group_by_concat in Hg0; lia. }
  rewrite length_map. apply Nat.leb_le in H5 as ->.
  destruct run as [|r run']; [done |]. simpl in Hp. inversion Hp; subst r.
  simpl map. f_equal. f_equal.
  change (p.2 :: map snd run') with (map snd (p :: run')). by apply last_map_snd.
Qed.

(** What [run_of_five] reports on a nine-entry window is a maximal run of
    five or more, and the run has the key of the middle entry. *)
Lemma run_of_five_sound (w : list (K * A)) (e0 : K * A) (ends : A * A) :
  length w = 9%nat -> w !! 4%nat = Some e0 ->
  run_of_five w = Some ends -> max_run w e0.1 ends.
Proof.
  intros Hlen H4. unfold run_of_five.
  destruct (max_by_len (map (map snd) (group_by w))) as [a|] eqn:Em; [| done].
  destruct (Nat.leb 5 (length a)) eqn:H5; [| done].
  apply Nat.leb_le in H5.
  destruct a as [|p a'] eqn:Ea; [done |]. intros [= <-].
  apply max_by_len_in in Em. apply list_elem_of_In, in_map_iff in Em as (g & Hga & Hin).
  apply list_elem_of_In in Hin. symmetry in Hga.
  pose proof (group_by_const w) as Hconst. pose proof (group_by_chain w) as Hchain.
  pose proof (group_by_concat w) as Hcat.
  apply list_elem_of_split in Hin as (G1 & G2 & Egs).
  rewrite Egs in Hconst, Hchain, Hcat.
  destruct (chain_split G1 g G2 Hchain Hconst) as [Hb1 Hb2].
  rewrite Forall_app in Hconst. destruct Hconst as [_ Hconst].
  apply Forall_cons in Hconst as [[k [Hne Hk]] _].
  rewrite concat_app in Hcat. simpl in Hcat.
  assert (length g = length (p :: a')) as Hlg by (rewrite Hga; symmetry; apply length_map).
  assert (length (concat G1) + length g + length (concat G2) = 9)%nat as Hsum.
  { rewrite <- Hlen, <- Hcat, !length_app. lia. }
  simpl in Hlg, H5.
  assert (e0.1 = k) as Hk0.
  { rewrite <- Hcat in H4.
    rewrite lookup_app_r in H4 by lia. rewrite lookup_app_l in H4 by lia.
    apply list_elem_of_lookup_2 in H4. rewrite Forall_forall in Hk. by apply Hk. }
  destruct g as [|x g']; [done |].
  destruct (last (x :: g')) as [q|] eqn:Hq.
  2: { apply last_None in Hq. done. }
  exists (concat G1), (x :: g'), (concat G2), x, q.
  split; [done |]. split; [lia |]. split; [by rewrite Hk0 |].
  split.
  { intros e He. rewrite Hk0. apply Forall_cons in Hk as [Hx _]. rewrite <- Hx.
    apply (Hb1 e x); done. }
  split.
  { intros e He. rewrite Hk0. rewrite Forall_forall in Hk.
    rewrite <- (Hk q) by (by apply last_Some_elem_of).
    intros Heq. apply (Hb2 q e); [done | done | done]. }
  split; [done |]. split; [done |].
  simpl in Hga. inversion Hga; subst p a'.
  pose proof (last_map_snd (x :: g') q x.2 Hq) as Hl. simpl in Hl |- *. rewrite Hl. done.
Qed.
End LongestRun.

(** ** Five in a row (C4) *)

Lemma range_9 (a : Z) :
  range (a - 4) (a + 5) = [a - 4; a - 3; a - 2; a - 1; a; a + 1; a + 2; a + 3; a + 4].
Proof.
  unfold range. replace (a + 5 - (a - 4)) with 9 by lia. simpl.
  repeat (apply (f_equal2 (@cons Z)); [lia |]). reflexivity.
Qed.

Lemma win_scans_shape (x y : Z) :
  Forall (fun sc : list Z * list Z =>
            length (zip sc.1 sc.2) = 9%nat /\ zip sc.1 sc.2 !! 4%nat = Some (x, y))
         (win_scans x y).
Proof.
  unfold win_scans. rewrite !range_9. repeat constructor.
Qed.

Lemma map_lookup {B C : Type} (f : B -> C) (l : list B) (i : nat) :
  map f l !! i = f <$> l !! i.
Proof. revert i. induction l as [|z l IH]; intros [|i]; simpl; auto. Qed.

Lemma scan_window_shape (b : Board) (xs ys : list Z) (x y : Z) :
  length (zip xs ys) = 9%nat -> zip xs ys !! 4%nat = Some (x, y) ->
  length (scan_window b xs ys) = 9%nat /\
  scan_window b xs ys !! 4%nat = Some (Board_at b x y, (x, y)).
Proof.
  intros Hl H4. unfold scan_window. rewrite length_map, map_lookup, H4. done.
Qed.

Lemma Board_set_at (b : Board) (x y : Z) (c : Cell) :
  Board_at b x y = Some Empty -> Board_at (Board_set b x y c) x y = Some c.
Proof.
  unfold Board_at, Board_set. simpl.
  case_bool_decide; [done |]. intros Hl.
  apply list_lookup_insert_eq. by eapply lookup_lt_Some.
Qed.

Lemma first_win_Some (b : Board) (scans : list (list Z * list Z)) (fl : FirstAndLast) :
  first_win b scans = Some fl ->
  exists sc, sc ∈ scans /\ range_contains_win b sc.1 sc.2 = Some fl.
Proof.
  induction scans as [|[xs ys] scans IH]; simpl; [done |].
  destruct (range_contains_win b xs ys) eqn:E.
  - intros [= <-]. exists (xs, ys). split; [by left | done].
  - intros H. destruct (IH H) as (sc & Hin & Hsc). exists sc. split; [by right | done].
Qed.

Lemma first_win_None (b : Board) (scans : list (list Z * list Z)) :
  first_win b scans = None ->
  forall sc, sc ∈ scans -> range_contains_win b sc.1 sc.2 = None.
Proof.
  induction scans as [|[xs ys] scans IH]; simpl; intros H sc Hin.
  - by apply elem_of_nil in Hin.
  - destruct (range_contains_win b xs ys) eqn:E; [done |].
    apply elem_of_cons in Hin as [->|Hin]; [done |]. by apply IH.
Qed.

Lemma scan_sound (b : Board) (X Y : Z) (u : User) (sc : list Z * list Z) (fl : FirstAndLast) :
  Board_at b X Y = Some (Occupied u) -> sc ∈ win_scans X Y ->
  range_contains_win b sc.1 sc.2 = Some fl ->
  max_run (scan_window b sc.1 sc.2) (Some (Occupied u)) fl.
Proof.
  intros Hat Hin Hr.
  pose proof (win_scans_shape X Y) as Hs. rewrite Forall_forall in Hs.
  destruct (Hs sc Hin) as [Hl H4].
  destruct (scan_window_shape b sc.1 sc.2 X Y Hl H4) as [Hwl Hw4].
  rewrite <- Hat. exact (run_of_five_sound _ _ _ Hwl Hw4 Hr).
Qed.

Lemma scan_complete (b : Board) (X Y : Z) (sc : list Z * list Z) (fl : FirstAndLast) :
  sc ∈ win_scans X Y -> owner_run (scan_window b sc.1 sc.2) fl ->
  range_contains_win b sc.1 sc.2 = Some fl.
Proof.
  intros Hin [owner Hrun].
  pose proof (win_scans_shape X Y) as Hs. rewrite Forall_forall in Hs.
  destruct (Hs sc Hin) as [Hl H4].
  destruct (scan_window_shape b sc.1 sc.2 X Y Hl H4) as [Hwl _].
  exact (run_of_five_complete _ _ _ Hwl Hrun).
Qed.

(** C4: after a placement that is not rejected, [try_place] reports [Win]
    exactly when one of the four nine-cell scans through the placed cell
    (vertical, diagonal, horizontal, anti-diagonal, four cells either side)
    holds a maximal run of five or more cells of one owner; the reported
    pair is the first and last coordinates of such a run, whose owner is
    the mover. On a 10x10 board, one player placing at (5,5), (6,5),
    (7,5), (8,5) and then (9,5) wins with the line ((5,5),(9,5)). *)
Theorem gomoku_win_detection :
  (forall (b b' : Board) (u : User) (x y : Z) (r : PlaceResult.t),
     try_place b u x y = (b', r) -> r <> PlaceResult.InvalidMove ->
     ((exists fl, r = PlaceResult.Win fl) <->
      exists sc fl, sc ∈ win_scans (as_i32 x) (as_i32 y) /\
                    owner_run (scan_window b' sc.1 sc.2) fl) /\
     (forall fl, r = PlaceResult.Win fl ->
      exists sc, sc ∈ win_scans (as_i32 x) (as_i32 y) /\
                 max_run (scan_window b' sc.1 sc.2) (Some (Occupied u)) fl)) /\
  (let g4 := place_all (Gomoku.Game_new 10 10 [player1]) player1
                       [(5, 5); (6, 5); (7, 5); (8, 5)] in
   (try_place (Gomoku.board g4) player1 9 5).2 = PlaceResult.Win ((5, 5), (9, 5)) /\
   (Gomoku.make_move g4 player1 (9, 5)).2 = Gomoku.InternalMoveResult.Win /\
   Gomoku.winner (Gomoku.make_move g4 player1 (9, 5)).1 = Some (player1, ((5, 5), (9, 5)))).
Proof.
  split.
  - intros b b' u x y r H Hr. unfold try_place in H.
    destruct (Board_at b (as_i32 x) (as_i32 y)) as [[|v]|] eqn:Eb;
      inversion H; subst; [| done | done].
    set (b1 := Board_set b (as_i32 x) (as_i32 y) (Occupied u)).
    assert (Board_at b1 (as_i32 x) (as_i32 y) = Some (Occupied u)) as Hat
      by (by apply Board_set_at).
    unfold check_for_win_around. fold b1.
    destruct (first_win b1 (win_scans (as_i32 x) (as_i32 y))) as [f|] eqn:Ef.
    + destruct (first_win_Some _ _ _ Ef) as (sc & Hin & Hsc).
      split; [split |].
      * intros _. exists sc, f. split; [done |]. exists u. by eapply scan_sound.
      * intros _. by exists f.
      * intros fl [= <-]. exists sc. split; [done |]. by eapply scan_sound.
    + split; [split |].
      * by intros [fl Hfl].
      * intros (sc & fl & Hin & Hrun).
        pose proof (first_win_None _ _ Ef sc Hin) as HN.
        rewrite (scan_complete b1 _ _ sc fl Hin Hrun) in HN. done.
      * done.
  - vm_compute. split; [reflexivity | split; reflexivity].
Qed.

(** ** Instances of the properties at concrete inputs *)

(** [player1] connects to a fresh counter game; the game then starts
    with [player1]'s turn. *)
Lemma dumb_try_start_game_spec_witness :
  tt_players (Dumb.players (Dumb.player_connected Dumb.Game_new player1)) <> [] /\
  exists u g', Dumb.try_start_game (Dumb.player_connected Dumb.Game_new player1) =
               Some (g', Some (Dumb.turn_of g' u)).
Proof.
  assert (tt_players (Dumb.players (Dumb.player_connected Dumb.Game_new player1)) <> [])
    as Hne by (vm_compute; discriminate).
  split; [exact Hne |].
  destruct (dumb_try_start_game_spec (Dumb.player_connected Dumb.Game_new player1)) as [_ H].
  destruct (H Hne) as (u & g' & _ & _ & Hs). exists u, g'. exact Hs.
Defined.

(** "a" connects to a fresh registry, leaves, "b" connects, and "a"
    connects again: "a" gets its first colour back. *)
Lemma paint_bucket_assignment_witness :
  reachable_table PlayerTable_new /\
  pi_color (add_new_player
              (reg_run (add_new_player PlayerTable_new "a" 0%nat).2 [RegRemove "a"; RegAdd "b" 1%nat])
              "a" 2%nat).1 =
  pi_color (add_new_player PlayerTable_new "a" 0%nat).1.
Proof.
  split; [constructor |].
  pose proof (paint_bucket_assignment PlayerTable_new "a" 0%nat rt_new) as H.
  revert H. destruct (add_new_player PlayerTable_new "a" 0%nat) as [p t']. simpl.
  intros (_ & _ & _ & H4). exact (H4 [RegRemove "a"; RegAdd "b" 1%nat] 2%nat).
Defined.

(** ** Concrete runs of the loop *)

(** C1: entering [Gating] drops the pending move receiver, clears the
    scores and replaces the game, but the turn token stays; from a state
    where "a" holds the turn, the later disconnect of "a" reaches the
    new game's [current_player_disconnected], whose rotation is empty, and
    the loop panics. *)
Theorem gating_keeps_stale_token :
  (forall (s s' : Controller Gomoku.Game) (m : GameMode),
     is_gating m = true ->
     controller_step gomoku_maker all_alive s (ev_mode m) = Some s' ->
     p_move_rx s' = None /\ score (controller_info s') = ∅ /\
     game s' = gomoku_maker [] /\ turn_token s' = turn_token s) /\
  (exists s, gomoku_run all_alive [ev_connect "a" 1%nat; ev_mode Gating] = Some s /\
     p_move_rx s = None /\ score (controller_info s) = ∅ /\
     option_map (fun t => name (user t)) (turn_token s) = Some "a") /\
  gomoku_run all_alive [ev_connect "a" 1%nat; ev_mode Gating; ev_disconnect "a"] = None.
Proof.
  split; [| split].
  - intros s s' m Hm Hs. destruct m; try discriminate Hm.
    unfold controller_step, ev_mode, on_go_to_mode in Hs. simpl in Hs.
    destruct (is_gating (game_mode (controller_info s))); simpl in Hs;
      inversion Hs; subst; simpl; done.
  - eexists. split; [vm_compute; reflexivity |]. vm_compute. done.
  - vm_compute. reflexivity.
Qed.

(** C2: a player eliminated by an invalid move stays in the registry but
    leaves the rotation; when it disconnects while another player holds
    the turn, the loop calls [player_disconnected] and panics. With no
    turn outstanding (here, in [Gating]) a disconnect changes nothing:
    the player stays in the registry. *)
Theorem disconnect_after_elimination_panics :
  (exists s,
     gomoku_run all_alive [ev_connect "a" 1%nat; ev_connect "b" 2%nat; ev_move MoveOther true]
       = Some s /\
     option_map (fun t => name (user t)) (turn_token s) = Some "b" /\
     registered (players s) "a" /\ "a" ∉ tt_names (Gomoku.players (game s))) /\
  gomoku_run all_alive
    [ev_connect "a" 1%nat; ev_connect "b" 2%nat; ev_move MoveOther true; ev_disconnect "a"]
    = None /\
  (exists s,
     gomoku_run all_alive [ev_mode Gating; ev_connect "a" 1%nat; ev_disconnect "a"] = Some s /\
     turn_token s = None /\ registered (players s) "a").
Proof.
  split; [| split].
  - eexists. split; [vm_compute; reflexivity |]. vm_compute.
    split; [done |]. split; [by left |]. intros Hin.
    apply list_elem_of_singleton in Hin. discriminate.
  - vm_compute. reflexivity.
  - eexists. split; [vm_compute; reflexivity |]. vm_compute.
    split; [done | by left].
Qed.

(** C3: a rejection whose error channel is closed ends the loop, the
    [unwrap] of the failed send; with the channel open the same move is
    handled. *)
Theorem rejection_send_failure_panics :
  (forall (g : Gomoku.Game) ci pt next,
     react_rejection all_alive g ci pt false next = None) /\
  gomoku_run all_alive [ev_connect "a" 1%nat; ev_move MoveOther false] = None /\
  is_Some (gomoku_run all_alive [ev_connect "a" 1%nat; ev_move MoveOther true]).
Proof.
  split; [| split].
  - intros. reflexivity.
  - vm_compute. reflexivity.
  - vm_compute. eexists. reflexivity.
Qed.

(** C6: in [Practice] a win counts: "a" alone places five in a row and
    its score becomes 1. *)
Theorem practice_win_scores :
  exists s,
    gomoku_run all_alive
      [ev_connect "a" 1%nat; ev_move (MoveXY 0 0) true; ev_move (MoveXY 1 0) true;
       ev_move (MoveXY 2 0) true; ev_move (MoveXY 3 0) true; ev_move (MoveXY 4 0) true]
      = Some s /\
    game_mode (controller_info s) = Practice /\ score (controller_info s) !! "a" = Some 1%nat.
Proof.
  eexists. split; [vm_compute; reflexivity |]. vm_compute. done.
Qed.

(** C7: a coordinate past the board, [x = 2^32 + 5] on a 10x10 board, is
    truncated to [5] by the [as i32] casts and accepted: the cell (5,0) is
    taken and the move is [Ok]. *)
Theorem wrapped_coordinate_accepted :
  Gomoku.to_player_move (MoveXY 4294967301 0) = Some (4294967301, 0) /\
  10 <= 4294967301 /\
  exists g' t,
    Gomoku.player_moves (gomoku_maker [player1]) (mkTurnToken player1) (MoveXY 4294967301 0)
      = Some (g', PlayerMoveResult.Ok t) /\
    Board_at (Gomoku.board g') 5 0 = Some (Occupied player1).
Proof.
  split; [vm_compute; reflexivity |]. split; [lia |].
  eexists _, _. split; [vm_compute; reflexivity |]. vm_compute. reflexivity.
Qed.

(** ** The outstanding turn and the registry (C5) *)

Lemma pt_get_registered (t : PlayerTable) (n : string) (p : PlayerInfo) :
  pt_get t n = Some p -> registered t n.
Proof.
  unfold pt_get, registered. intros Hf.
  apply find_some in Hf as [Hin Hp]. apply bool_decide_eq_true in Hp.
  apply list_elem_of_In, in_map_iff. exists p. done.
Qed.

Lemma remove_loop_keeps (n m : string) (l : list PlayerInfo) (i cur : nat) :
  m ∈ map pi_name l -> m <> n -> m ∈ map pi_name (remove_loop n i cur l).1.
Proof.
  revert i cur. induction l as [|p l IH]; intros i cur Hm Hne; simpl in *; [done |].
  case_bool_decide as Hp.
  - apply IH; [| done]. apply elem_of_cons in Hm as [->|Hm]; [done | done].
  - destruct (remove_loop n (S i) cur l) as [kept cur'] eqn:E. simpl.
    apply elem_of_cons in Hm as [->|Hm]; [by left |]. right.
    specialize (IH (S i) cur Hm Hne). rewrite E in IH. done.
Qed.

Lemma remove_player_keeps (t : PlayerTable) (n m : string) :
  registered t m -> m <> n -> registered (remove_player t n).2 m.
Proof.
  unfold remove_player, registered. intros Hm Hne.
  pose proof (remove_loop_keeps n m (pt_players t) 0 (current_index t) Hm Hne) as H.
  destruct (remove_loop n 0 (current_index t) (pt_players t)). done.
Qed.

Lemma add_new_player_keeps (t : PlayerTable) (n m : string) (ch : ChanId) :
  registered t m -> registered (add_new_player t n ch).2 m.
Proof.
  intros Hm. unfold add_new_player.
  destruct (decide (m = n)) as [->|Hne].
  - destruct (PaintBucket_get _ n). unfold registered. simpl.
    rewrite map_app. apply elem_of_app. right. by left.
  - pose proof (remove_player_keeps t n m Hm Hne) as H.
    destruct (PaintBucket_get _ n). unfold registered in *. simpl.
    rewrite map_app. apply elem_of_app. by left.
Qed.

Section TurnInvariant.
Context {G : Type} `{GameTrait G}.
Variable game_maker : list User -> G.
Variable alive : ChanId -> bool.

Lemma your_turn_registered (fuel : nat) (pt : PlayerTable) (g g' : G) (tok tok' : TurnToken)
    (st : PlayerGameState) (ci : ControllerInfo) (rx : MoveReceiver) :
  your_turn alive fuel pt g tok st ci = Some (g', Some (rx, tok')) ->
  registered pt (name (user tok')).
Proof.
  revert g tok st. induction fuel as [|fuel IH]; intros g tok st; simpl; [done |].
  destruct (is_gating (game_mode ci)); [done |].
  destruct (pt_get pt (name (user tok))) as [np|] eqn:Eg; simpl; [| done].
  destruct (alive (tx np)).
  - intros [= _ _ <-]. by eapply pt_get_registered.
  - destruct (current_player_disconnected g tok) as [[g1 [t|]]|]; simpl; [| done | done].
    apply IH.
Qed.

Lemma first_move_registered (g g' : G) (ci : ControllerInfo) (pt : PlayerTable)
    (rx : MoveReceiver) (tok' : TurnToken) :
  first_move_new_game alive g ci pt = Some (g', Some (rx, tok')) ->
  registered pt (name (user tok')).
Proof.
  unfold first_move_new_game.
  destruct (try_start_game g) as [[g1 [t|]]|]; simpl; [| done | done].
  apply your_turn_registered.
Qed.

Lemma react_registered (who : string) (res : PlayerMoveResult.t) (g g' : G)
    (ci ci' : ControllerInfo) (pt pt' : PlayerTable) (err : bool)
    (rx : MoveReceiver) (tok' : TurnToken) :
  react_to_player_move alive who res g ci pt err = Some (g', ci', pt', NextMoveReceiver rx tok') ->
  registered pt' (name (user tok')).
Proof.
  assert (forall t (r : option (G * option (MoveReceiver * TurnToken))),
            r = dispatch alive pt g (token t) (state t) ci ->
            (r0 ← r; let '(g1, r1) := r0 in Some (g1, ci, pt, into_return r1)) =
              Some (g', ci', pt', NextMoveReceiver rx tok') ->
            registered pt' (name (user tok'))) as Hd.
  { intros t r Hr. destruct r as [[g1 [[rx1 tok1]|]]|]; simpl; [| done | done].
    intros [= _ _ <- <- <-]. eapply your_turn_registered. symmetry. exact Hr. }
  destruct res as [t| | |next|next]; simpl.
  - by apply (Hd t _ eq_refl).
  - done.
  - done.
  - unfold react_rejection. destruct err; simpl; [| done].
    destruct next as [t|]; [by apply (Hd t _ eq_refl) | done].
  - unfold react_rejection. destruct err; simpl; [| done].
    destruct next as [t|]; [by apply (Hd t _ eq_refl) | done].
Qed.

Lemma turn_inv_publish (s : Controller G) : turn_inv (publish s) <-> turn_inv s.
Proof. done. Qed.

Lemma turn_inv_with_turn (s : Controller G) (g : G) (r : option (MoveReceiver * TurnToken)) :
  (forall rx tok, r = Some (rx, tok) -> registered (players s) (name (user tok))) ->
  turn_inv (with_turn s g r).
Proof.
  intros Hr rx. destruct r as [[rx1 tok1]|]; simpl; [| done].
  intros _. exists tok1. split; [done |]. by eapply Hr.
Qed.

Lemma turn_inv_step (s s' : Controller G) (ev : Event) :
  turn_inv s -> controller_step game_maker alive s ev = Some s' -> turn_inv s'.
Proof.
  intros Hinv. unfold controller_step.
  destruct (match ev with
            | Ev_ControllerMsg (ImConnected n ch) => on_connected alive s n ch
            | Ev_ControllerMsg (ImDisconnected n) => on_disconnected alive s n
            | Ev_ControllerMsg (GoToMode m) => on_go_to_mode game_maker alive s m
            | Ev_ControllerMsg ResetGame => Some s
            | Ev_ControllerMsg (SetTurnDelay d) => _
            | Ev_ControllerMsg (SetWinDelay d) => _
            | Ev_Move pm => on_move game_maker alive s pm
            | Ev_PlayerMoveDropped => Some s
            end) as [s1|] eqn:E; simpl; [| done].
  intros [= <-]. apply turn_inv_publish.
  destruct ev as [[n ch|n|m| |d|d]|pm|].
  - (* ImConnected *)
    unfold on_connected in E.
    destruct (add_new_player (players s) n ch) as [np pt] eqn:Ea.
    assert (forall m, registered (players s) m -> registered pt m) as Hkeep.
    { intros m Hm. replace pt with (add_new_player (players s) n ch).2 by (by rewrite Ea).
      by apply add_new_player_keeps. }
    destruct (p_move_rx s) as [rx0|] eqn:Erx.
    + inversion E; subst s1. intros rx Hrx. simpl in Hrx.
      destruct (Hinv rx0 Erx) as (tok & Htok & Hreg).
      exists tok. split; [done |]. by apply Hkeep.
    + destruct (try_start_game _) as [[g1 [t|]]|]; simpl in E; [| | done].
      * destruct (dispatch alive pt g1 (token t) (state t) (controller_info s))
          as [[g2 r]|] eqn:Ed; simpl in E; [| done].
        inversion E; subst s1. apply turn_inv_with_turn. simpl.
        intros rx tok ->. by eapply your_turn_registered.
      * inversion E; subst s1. intros rx Hrx. simpl in Hrx. congruence.
  - (* ImDisconnected *)
    unfold on_disconnected in E.
    destruct (turn_token s) as [tok|] eqn:Etok; [| inversion E; subst s1; done].
    case_bool_decide as Hn.
    + destruct (current_player_disconnected (game s) tok) as [[g1 [t|]]|]; simpl in E;
        [| | done].
      * destruct (dispatch alive (players s) g1 (token t) (state t) (controller_info s))
          as [[g2 r]|] eqn:Ed; simpl in E; [| done].
        inversion E; subst s1. apply turn_inv_with_turn.
        intros rx tok' ->. by eapply your_turn_registered.
      * inversion E; subst s1. by apply turn_inv_with_turn.
    + destruct (remove_player (players s) n) as [removed pt] eqn:Er.
      destruct (if removed then player_disconnected (game s) n else Some (game s))
        as [g1|]; simpl in E; [| done].
      inversion E; subst s1. intros rx Hrx. simpl in Hrx.
      destruct (Hinv rx Hrx) as (tok0 & Htok0 & Hreg).
      rewrite Etok in Htok0. inversion Htok0; subst tok0.
      exists tok. split; [done |]. simpl.
      replace pt with (remove_player (players s) n).2 by (by rewrite Er).
      by apply remove_player_keeps.
  - (* GoToMode *)
    unfold on_go_to_mode in E.
    set (ci := set_game_mode (controller_info s) m) in E.
    set (s0 := mkController (game s) (p_move_rx s) (turn_token s) (players s) ci) in E.
    assert (turn_inv s0) as Hinv0 by exact Hinv.
    destruct (if is_gating (game_mode (controller_info s)) && negb (is_gating m) then _ else _)
      as [s2|] eqn:E2; simpl in E; [| done].
    assert (turn_inv s2) as Hinv2.
    { destruct (is_gating (game_mode (controller_info s)) && negb (is_gating m));
        [| by inversion E2].
      destruct (try_start_game (game s0)) as [[g1 [t|]]|]; simpl in E2; [| | done].
      - destruct (dispatch alive (players s) g1 (token t) (state t) ci)
          as [[g2 r]|] eqn:Ed; simpl in E2; [| done].
        inversion E2; subst s2. apply turn_inv_with_turn.
        intros rx tok ->. by eapply your_turn_registered.
      - by inversion E2. }
    destruct (is_gating (game_mode (controller_info s2))); inversion E; subst s1; [done |].
    exact Hinv2.
  - by inversion E; subst s1.
  - by inversion E; subst s1.
  - by inversion E; subst s1.
  - (* Move *)
    unfold on_move in E.
    destruct (turn_token s) as [tok|]; simpl in E; [| done].
    destruct (player_moves (game s) tok (mov pm)) as [[g1 res]|]; simpl in E; [| done].
    destruct (react_to_player_move alive _ res g1 (controller_info s) (players s) (move_err_open pm))
      as [[[[g2 ci] pt] ret]|] eqn:Er; simpl in E; [| done].
    destruct ret as [|rx tok'|].
    + inversion E; subst s1. done.
    + inversion E; subst s1. intros rx' [= <-]. exists tok'. split; [done |].
      by eapply react_registered.
    + destruct (first_move_new_game alive _ ci pt) as [[g4 r]|] eqn:Ef; simpl in E; [| done].
      inversion E; subst s1. intros rx Hrx. simpl in Hrx.
      destruct r as [[rx1 tok1]|]; simpl in Hrx |- *; [| done].
      exists tok1. split; [done |]. by eapply first_move_registered.
  - by inversion E; subst s1.
Qed.

End TurnInvariant.

(** ** How a step changes the scores (C6) *)

Section Scores.
Context {G : Type} `{GameTrait G}.
Variable game_maker : list User -> G.
Variable alive : ChanId -> bool.

Lemma react_score (who : string) (res : PlayerMoveResult.t) (g g' : G)
    (ci ci' : ControllerInfo) (pt pt' : PlayerTable) (err : bool) (ret : PlayerMovesReturn) :
  react_to_player_move alive who res g ci pt err = Some (g', ci', pt', ret) ->
  ci' = match res with PlayerMoveResult.Win => add_player_win ci who | _ => ci end.
Proof.
  destruct res as [t| | |next|next]; simpl.
  - destruct (dispatch alive pt g (token t) (state t) ci) as [[g1 r]|]; simpl; [| done].
    by intros [= _ <- _ _].
  - by intros [= _ <- _ _].
  - by intros [= _ <- _ _].
  - unfold react_rejection. destruct err; simpl; [| done].
    destruct next as [t|]; [| by intros [= _ <- _ _]].
    destruct (dispatch alive pt g (token t) (state t) ci) as [[g1 r]|]; simpl; [| done].
    by intros [= _ <- _ _].
  - unfold react_rejection. destruct err; simpl; [| done].
    destruct next as [t|]; [| by intros [= _ <- _ _]].
    destruct (dispatch alive pt g (token t) (state t) ci) as [[g1 r]|]; simpl; [| done].
    by intros [= _ <- _ _].
Qed.

(** C6: the scores after a step: entering [Gating] clears them; a move the
    engine reports as [Win] adds one to the mover's count, in every mode;
    every other event, a [Draw] among them, leaves them as they were. *)
Theorem score_changes (s s' : Controller G) (ev : Event) :
  controller_step game_maker alive s ev = Some s' ->
  score (controller_info s') =
    match ev with
    | Ev_ControllerMsg (GoToMode m) => if is_gating m then ∅ else score (controller_info s)
    | Ev_Move pm =>
        match turn_token s with
        | Some tok =>
            match player_moves (game s) tok (mov pm) with
            | Some (_, PlayerMoveResult.Win) =>
                score (add_player_win (controller_info s) (name (user tok)))
            | _ => score (controller_info s)
            end
        | None => score (controller_info s)
        end
    | _ => score (controller_info s)
    end /\
  (forall ci n, score (add_player_win ci n) !! n = Some (S (default 0%nat (score ci !! n))) /\
     forall m, m <> n -> score (add_player_win ci n) !! m = score ci !! m).
Proof.
  intros Hs. split.
  2: { intros ci n. unfold add_player_win. simpl.
       destruct (score ci !! n) eqn:E; simpl;
         (split; [by rewrite lookup_insert_eq | intros m Hm; by rewrite lookup_insert_ne]). }
  revert Hs. unfold controller_step.
  destruct ev as [[n ch|n|m| |d|d]|pm|]; simpl.
  - unfold on_connected. destruct (add_new_player (players s) n ch) as [np pt].
    destruct (p_move_rx s); [by intros [= <-] |].
    destruct (try_start_game _) as [[g1 [t|]]|]; simpl; [| by intros [= <-] | done].
    destruct (dispatch alive pt g1 _ _ _) as [[g2 r]|]; simpl; [by intros [= <-] | done].
  - unfold on_disconnected. destruct (turn_token s) as [tok|]; [| by intros [= <-]].
    case_bool_decide.
    + destruct (current_player_disconnected (game s) tok) as [[g1 [t|]]|]; simpl;
        [| by intros [= <-] | done].
      destruct (dispatch alive _ g1 _ _ _) as [[g2 r]|]; simpl; [by intros [= <-] | done].
    + destruct (remove_player (players s) n) as [removed pt].
      destruct (if removed then _ else _); simpl; [by intros [= <-] | done].
  - unfold on_go_to_mode.
    destruct (if is_gating (game_mode (controller_info s)) && negb (is_gating m) then _ else _)
      as [s2|] eqn:E2; simpl; [| done].
    assert (score (controller_info s2) = score (controller_info s) /\
            game_mode (controller_info s2) = m) as [Hs2 Hm2].
    { destruct (is_gating (game_mode (controller_info s)) && negb (is_gating m));
        [| by inversion E2].
      destruct (try_start_game _) as [[g1 [t|]]|]; simpl in E2; [| by inversion E2 | done].
      destruct (dispatch alive _ g1 _ _ _) as [[g2 r]|]; simpl in E2; [| done].
      by inversion E2. }
    rewrite Hm2. destruct (is_gating m); intros [= <-]; simpl; done.
  - by intros [= <-].
  - by intros [= <-].
  - by intros [= <-].
  - unfold on_move. destruct (turn_token s) as [tok|]; simpl; [| done].
    destruct (player_moves (game s) tok (mov pm)) as [[g1 res]|]; simpl; [| done].
    destruct (react_to_player_move alive _ res g1 (controller_info s) (players s) (move_err_open pm))
      as [[[[g2 ci] pt] ret]|] eqn:Er; simpl; [| done].
    apply react_score in Er. subst ci.
    destruct ret as [|rx tok'|].
    + intros [= <-]. simpl. by destruct res.
    + intros [= <-]. simpl. by destruct res.
    + destruct (first_move_new_game alive _ _ pt) as [[g4 r]|]; simpl; [| done].
      intros [= <-]. simpl. by destruct res.
  - by intros [= <-].
Qed.

End Scores.

(** ** Rejected moves of the five-in-a-row engine *)

Lemma as_i32_small (v : Z) : 0 <= v < 2 ^ 31 -> as_i32 v = v.
Proof.
  intros Hv. unfold as_i32. rewrite Z.mod_small by lia.
  destruct (Z_lt_dec v (2 ^ 31)); [done | lia].
Qed.

Lemma filter_names_out (n : string) (l : list User) :
  n ∉ map name (filter (fun u => name u ≠ n) l).
Proof.
  induction l as [|u l IH]; simpl; [apply not_elem_of_nil |].
  rewrite filter_cons. case_decide as Hu; simpl; [| done].
  rewrite elem_of_cons. intros [Heq|Hin]; [by apply Hu | done].
Qed.

Lemma check_for_win_around_valid (b : Board) (x y : Z) :
  check_for_win_around b x y <> PlaceResult.InvalidMove.
Proof. unfold check_for_win_around. by destruct (first_win _ _). Qed.

Lemma eliminate_spec (g : Gomoku.Game) (u : User) :
  name u ∈ tt_names (Gomoku.players g) ->
  exists g' next, Gomoku.eliminate g u = Some (g', next) /\ eliminated g' u next.
Proof.
  intros Hin. unfold Gomoku.eliminate.
  destruct (tt_remove_player (Gomoku.players g) (name u)) as [t|] eqn:Et.
  2: { apply tt_remove_player_None in Et. done. }
  simpl. assert (name u ∉ tt_names t) as Hout.
  { unfold tt_remove_player in Et.
    destruct (find_position _ _); simpl in Et; [| done].
    inversion Et; subst t. apply filter_names_out. }
  unfold tt_advance_player. destruct (tt_players t) as [|p ps] eqn:Ep.
  - do 2 eexists. split; [reflexivity |]. unfold eliminated. simpl.
    split; [exact Hout | rewrite Ep; split; done].
  - do 2 eexists. split; [reflexivity |]. unfold eliminated, tt_names. simpl.
    unfold tt_names in Hout. rewrite Ep in Hout. split; [done |].
    split; [| done].
    destruct ((p :: ps) !! _) eqn:L; [done |].
    exfalso. apply lookup_ge_None in L. simpl in L.
    pose proof (Nat.mod_upper_bound (current_player_index t + 1) (S (length ps))). lia.
Qed.

(** The five-in-a-row engine on a move of a player in its rotation: a
    payload that does not parse is [InvalidFormat]; a parsed move with
    coordinates below [2^31] is [InvalidMove] exactly when its cell is off
    the board or taken; after either rejection the mover has left the
    rotation and the turn handed on is missing only when the rotation is
    empty. *)
Theorem gomoku_rejection_spec (g : Gomoku.Game) (tok : TurnToken) (pm : PlayerMove) :
  name (user tok) ∈ tt_names (Gomoku.players g) ->
  (Gomoku.to_player_move pm = None ->
   exists g' next, Gomoku.player_moves g tok pm = Some (g', PlayerMoveResult.InvalidFormat next) /\
                   eliminated g' (user tok) next) /\
  (forall x y, Gomoku.to_player_move pm = Some (x, y) -> x < 2 ^ 31 -> y < 2 ^ 31 ->
   (Board_at (Gomoku.board g) x y <> Some Empty <->
    exists g' next, Gomoku.player_moves g tok pm = Some (g', PlayerMoveResult.InvalidMove next)) /\
   (forall g' next, Gomoku.player_moves g tok pm = Some (g', PlayerMoveResult.InvalidMove next) ->
    eliminated g' (user tok) next)).
Proof.
  intros Hin. split.
  - intros Hp. unfold Gomoku.player_moves. rewrite Hp.
    destruct (eliminate_spec g (user tok) Hin) as (g' & next & He & Hel).
    rewrite He. simpl. eauto.
  - intros x y Hp Hx Hy.
    assert (0 <= x /\ 0 <= y) as [Hx0 Hy0].
    { unfold Gomoku.to_player_move in Hp. destruct pm; try discriminate.
      case_bool_decide; [| discriminate]. inversion Hp; subst. lia. }
    unfold Gomoku.player_moves. rewrite Hp.
    unfold Gomoku.make_move, try_place. simpl.
    rewrite (as_i32_small x), (as_i32_small y) by lia.
    destruct (Board_at (Gomoku.board g) x y) as [[|v]|] eqn:Eb; simpl.
    + (* the cell is free: the move is placed, not rejected *)
      split.
      * split; [done |]. intros (g' & next & Hpm). revert Hpm.
        repeat case_match; simpl in *; intros; try congruence;
          first [ by exfalso; eapply check_for_win_around_valid
              | match goal with o : option User |- _ => destruct o; simpl in *; congruence end ].
      * intros g' next. repeat case_match; simpl in *; intros; try congruence;
          first [ by exfalso; eapply check_for_win_around_valid
              | match goal with o : option User |- _ => destruct o; simpl in *; congruence end ].
    + assert (exists g' next, Gomoku.eliminate
                (Gomoku.mkGame (Gomoku.board g) (Gomoku.winner g) (Gomoku.players g)) (user tok)
                = Some (g', next) /\ eliminated g' (user tok) next) as (g' & next & He & Hel)
        by (apply eliminate_spec; done).
      simpl. rewrite He. simpl. split.
      * split; [eauto | done].
      * by intros g'' next' [= <- <-].
    + assert (exists g' next, Gomoku.eliminate
                (Gomoku.mkGame (Gomoku.board g) (Gomoku.winner g) (Gomoku.players g)) (user tok)
                = Some (g', next) /\ eliminated g' (user tok) next) as (g' & next & He & Hel)
        by (apply eliminate_spec; done).
      simpl. rewrite He. simpl. split.
      * split; [eauto | done].
      * by intros g'' next' [= <- <-].
Qed.

(** "a" has placed four in a row alone in [Practice]; the fifth move wins
    and "a"'s score becomes 1. *)
Lemma score_changes_witness :
  match gomoku_run all_alive
          [ev_connect "a" 1%nat; ev_move (MoveXY 0 0) true; ev_move (MoveXY 1 0) true;
           ev_move (MoveXY 2 0) true; ev_move (MoveXY 3 0) true] with
  | Some s => exists s',
      controller_step gomoku_maker all_alive s (ev_move (MoveXY 4 0) true) = Some s' /\
      score (controller_info s') !! "a" = Some 1%nat
  | None => False
  end.
Proof.
  destruct (gomoku_run all_alive _) as [s|] eqn:E; [| vm_compute in E; discriminate E].
  vm_compute in E. injection E as Es. subst s.
  destruct (controller_step gomoku_maker all_alive _ (ev_move (MoveXY 4 0) true))
    as [s'|] eqn:Es'.
  - exists s'. split; [reflexivity |].
    destruct (score_changes gomoku_maker all_alive _ _ _ Es') as [Hsc _].
    rewrite Hsc. vm_compute. reflexivity.
  - vm_compute in Es'. discriminate Es'.
Defined.

(** [player1], alone in a fresh game, sends a payload that does not parse:
    [InvalidFormat], and [player1] leaves the rotation. *)
Lemma gomoku_rejection_spec_witness :
  name (user (mkTurnToken player1)) ∈ tt_names (Gomoku.players (gomoku_maker [player1])) /\
  exists g' next,
    Gomoku.player_moves (gomoku_maker [player1]) (mkTurnToken player1) MoveOther
      = Some (g', PlayerMoveResult.InvalidFormat next) /\
    eliminated g' player1 next.
Proof.
  assert (name (user (mkTurnToken player1)) ∈ tt_names (Gomoku.players (gomoku_maker [player1])))
    as Hin by (apply list_elem_of_In; vm_compute; left; reflexivity).
  split; [exact Hin |].
  destruct (gomoku_rejection_spec _ _ MoveOther Hin) as [H1 _]. apply H1. reflexivity.
Defined.

(* ================================================================== *)
(** * Further properties of the turn rotation ([turn_tracker.rs]) *)

Lemma tt_advance_n_lookup (t : TurnTracker) (k j : nat) :
  (j < k)%nat ->
  tt_advance_n t k !! j =
    Some (tt_players t !! ((current_player_index t + 1 + j) mod length (tt_players t)))%nat.
Proof.
  revert t j. induction k as [|k IH]; intros t j Hj; [lia |].
  cbn [tt_advance_n]. unfold tt_advance_player.
  destruct (tt_players t) as [|u l] eqn:Ep.
  - destruct j; cbn [lookup list_lookup]; [done |].
    rewrite IH by lia. rewrite Ep. done.
  - rewrite <- Ep. destruct j as [|j]; cbn [lookup list_lookup].
    + rewrite Nat.add_0_r. done.
    + rewrite IH by lia. cbn [tt_players current_player_index].
      rewrite <- Nat.add_assoc, Nat.Div0.add_mod_idemp_l. do 3 f_equal.
Qed.

Lemma length_tt_advance_n (t : TurnTracker) (k : nat) : length (tt_advance_n t k) = k.
Proof.
  revert t. induction k as [|k IH]; intros t; [done |].
  cbn [tt_advance_n]. destruct (tt_advance_player t). simpl. by rewrite IH.
Qed.

Lemma rotate_lookup {A : Type} (l : list A) (s j : nat) :
  (s < length l)%nat -> (j < length l)%nat ->
  (drop s l ++ take s l) !! j = l !! ((s + j) mod length l)%nat.
Proof.
  intros Hs Hj.
  destruct (decide (j < length l - s)%nat) as [Hlt|Hge].
  - rewrite lookup_app_l by (rewrite length_drop; lia).
    rewrite lookup_drop. rewrite Nat.mod_small by lia. done.
  - rewrite lookup_app_r by (rewrite length_drop; lia).
    rewrite length_drop, lookup_take, decide_True by lia.
    rewrite <- (Nat.mod_unique (s + j) (length l) 1 (s + j - length l)) by lia.
    f_equal. lia.
Qed.

Lemma tt_advance_n_rotation (t : TurnTracker) :
  tt_advance_n t (length (tt_players t)) =
    Some <$> (drop ((current_player_index t + 1) mod length (tt_players t)) (tt_players t)
              ++ take ((current_player_index t + 1) mod length (tt_players t)) (tt_players t))%nat.
Proof.
  destruct (decide (tt_players t = [])) as [E0|Hne].
  { rewrite E0, drop_nil, take_nil. done. }
  assert (length (tt_players t) <> 0)%nat as Hn.
  { intros Hl. apply Hne. by apply length_zero_iff_nil. }
  pose proof (Nat.mod_upper_bound (current_player_index t + 1) _ Hn) as Hs.
  apply list_eq. intros j.
  rewrite list_lookup_fmap.
  destruct (decide (j < length (tt_players t))%nat) as [Hj|Hj].
  - rewrite tt_advance_n_lookup by done.
    rewrite rotate_lookup by done.
    rewrite Nat.Div0.add_mod_idemp_l.
    destruct (tt_players t !! _) eqn:E; [done |].
    apply lookup_ge_None in E.
    pose proof (Nat.mod_upper_bound (current_player_index t + 1 + j) _ Hn). lia.
  - rewrite (lookup_ge_None_2 (tt_advance_n _ _)) by (rewrite length_tt_advance_n; lia).
    rewrite lookup_ge_None_2; [done |].
    rewrite length_app, length_drop, length_take. lia.
Qed.

(** X2: over as many [advance_player] calls as there are players, every
    player of the rotation gets the turn exactly once, whatever the current
    index (and none at all on an empty rotation). *)
Theorem turn_rotation_fair (t : TurnTracker) :
  tt_advance_n t (length (tt_players t)) ≡ₚ Some <$> tt_players t.
Proof.
  rewrite tt_advance_n_rotation. apply fmap_Permutation.
  rewrite Permutation_app_comm. by rewrite take_drop.
Qed.

Lemma find_position_lookup (l : list User) (i : nat) (u : User) :
  NoDup (map name l) -> l !! i = Some u -> find_position (name u) l = Some i.
Proof.
  revert i. induction l as [|v l IH]; intros i Hnd Hi; [done |].
  simpl in Hnd. apply NoDup_cons in Hnd as [Hv Hnd].
  destruct i as [|i]; simpl in Hi |- *.
  - injection Hi as ->. by rewrite bool_decide_true.
  - rewrite bool_decide_false.
    + by rewrite (IH i).
    + intros Heq. apply Hv. rewrite Heq. apply list_elem_of_In, in_map_iff.
      exists u. split; [done |]. apply list_elem_of_In. by eapply list_elem_of_lookup_2.
Qed.

Lemma filter_name_absent (l : list User) (n : string) :
  n ∉ map name l -> filter (fun v => name v ≠ n) l = l.
Proof.
  induction l as [|v l IH]; intros Hn; [done |].
  simpl in Hn. apply not_elem_of_cons in Hn as [Hv Hn].
  rewrite filter_cons_True; [by rewrite IH | done].
Qed.

Lemma filter_remove_at (l : list User) (i : nat) (u : User) :
  NoDup (map name l) -> l !! i = Some u ->
  filter (fun v => name v ≠ name u) l = take i l ++ drop (S i) l.
Proof.
  revert i. induction l as [|v l IH]; intros i Hnd Hi; [done |].
  simpl in Hnd. apply NoDup_cons in Hnd as [Hv Hnd].
  rewrite filter_cons. destruct i as [|i]; simpl in Hi |- *.
  - injection Hi as ->. rewrite decide_False by tauto.
    by apply filter_name_absent.
  - rewrite decide_True.
    + by rewrite (IH i).
    + intros Heq. apply Hv. rewrite Heq. apply list_elem_of_In, in_map_iff.
      exists u. split; [done |]. apply list_elem_of_In. by eapply list_elem_of_lookup_2.
Qed.

(** X3: with distinct names, removing a player other than the first one
    keeps the rotation going as if the player had never been there: if the
    removed player was not the current one, the current player stays current;
    if it was, the next [advance_player] hands the turn to the player that
    followed it. *)
Theorem tt_remove_player_keeps_turn (t : TurnTracker) (i : nat) (u : User) :
  NoDup (tt_names t) -> tt_players t !! i = Some u -> (0 < i)%nat ->
  (current_player_index t < length (tt_players t))%nat ->
  exists t', tt_remove_player t (name u) = Some t' /\
    (i <> current_player_index t ->
       tt_players t' !! current_player_index t' = tt_players t !! current_player_index t) /\
    (i = current_player_index t ->
       (tt_advance_player t').2 =
         tt_players t !! ((current_player_index t + 1) mod length (tt_players t))%nat).
Proof.
  unfold tt_names. intros Hnd Hi Hpos Hcur.
  pose proof (lookup_lt_Some _ _ _ Hi) as Hilen.
  unfold tt_remove_player. rewrite (find_position_lookup _ i u Hnd Hi). simpl.
  rewrite (filter_remove_at _ i u Hnd Hi).
  eexists. split; [reflexivity |].
  destruct (tt_players t) as [|v l] eqn:Ep; [simpl in Hilen; lia |].
  rewrite bool_decide_false by done.
  assert (Nat.eqb i 0 = false) as -> by (apply Nat.eqb_neq; lia).
  set (l0 := v :: l) in *. set (c := current_player_index t) in *.
  assert (length (take i l0 ++ drop (S i) l0) = length l0 - 1)%nat as Hlen.
  { rewrite length_app, length_take, length_drop. lia. }
  split.
  - intros Hne. cbn [tt_players current_player_index]. destruct (Nat.leb_spec i c) as [Hle|Hlt].
    + rewrite lookup_app_r by (rewrite length_take; lia).
      rewrite length_take, lookup_drop. f_equal. lia.
    + rewrite lookup_app_l by (rewrite length_take; lia).
      rewrite lookup_take, decide_True by lia. done.
  - intros <-. rewrite Nat.leb_refl. unfold tt_advance_player.
    cbn [tt_players current_player_index].
    destruct (take i l0 ++ drop (S i) l0) as [|w l'] eqn:E.
    { unfold l0 in *. simpl in *. lia. }
    cbn [snd tt_players current_player_index]. rewrite Hlen, <- E.
    rewrite Nat.sub_add by lia.
    destruct (decide (i + 1 < length l0))%nat as [Hlt|Hge].
    + rewrite !Nat.mod_small by lia.
      rewrite lookup_app_r by (rewrite length_take; lia).
      rewrite length_take, lookup_drop. f_equal. lia.
    + assert (i + 1 = length l0)%nat as Hq by lia. rewrite Hq, Nat.Div0.mod_same.
      assert (length l0 - 1 = i)%nat as -> by lia. rewrite Nat.Div0.mod_same.
      rewrite lookup_app_l by (rewrite length_take; lia).
      rewrite lookup_take, decide_True by lia. done.
Qed.

(** Removing the first player of a rotation of at least three: the index
    becomes the old length less one, one past the end of the shortened
    rotation, so the next [advance_player] lands on the second entry left. *)
Lemma tt_remove_first_player (a b c : User) (rest : list User) (cur : nat) :
  NoDup (map name (a :: b :: c :: rest)) ->
  exists t', tt_remove_player (mkTurnTracker (a :: b :: c :: rest) cur) (name a) = Some t' /\
    tt_players t' = b :: c :: rest /\
    tt_advance_player t' = (mkTurnTracker (b :: c :: rest) 1, Some c).
Proof.
  intros Hnd.
  unfold tt_remove_player. cbn [tt_players current_player_index].
  rewrite (find_position_lookup _ 0 a Hnd) by done. cbn [mbind option_bind].
  rewrite (filter_remove_at (a :: b :: c :: rest) 0 a Hnd) by done.
  cbn [take drop app Nat.leb Nat.eqb]. rewrite bool_decide_false by done.
  eexists. split; [reflexivity |]. split; [done |].
  unfold tt_advance_player. cbn [tt_players current_player_index].
  assert ((length (a :: b :: c :: rest) - 1 + 1) mod length (b :: c :: rest) = 1)%nat as ->.
  { cbn [length]. symmetry. apply (Nat.mod_unique _ _ 1); lia. }
  done.
Qed.


(** X4: with distinct names and at least three players, removing the first
    player of the rotation makes the next [advance_player] hand the turn to
    the original third player, whatever the current index was: when the
    first player was the current one, the second player is skipped. *)
Theorem tt_remove_first_player_skips_second (a b c : User) (rest : list User) (cur : nat) :
  NoDup (map name (a :: b :: c :: rest)) ->
  exists t', tt_remove_player (mkTurnTracker (a :: b :: c :: rest) cur) (name a) = Some t' /\
    tt_players t' = b :: c :: rest /\
    tt_advance_player t' = (mkTurnTracker (b :: c :: rest) 1, Some c).
Proof. apply tt_remove_first_player. Qed.

(** X5: adding a player of a new name and removing it again gives back the
    rotation unchanged, current index included, when that index is in range. *)
Theorem tt_add_remove_roundtrip (t : TurnTracker) (u : User) :
  name u ∉ tt_names t -> (current_player_index t < length (tt_players t))%nat ->
  tt_remove_player (tt_add_player t u) (name u) = Some t.
Proof.
  unfold tt_names, tt_remove_player, tt_add_player. cbn [tt_players current_player_index].
  intros Hn Hc.
  assert (find_position (name u) (tt_players t ++ [u]) = Some (length (tt_players t))) as ->.
  { clear Hc. induction (tt_players t) as [|v l IH]; simpl.
    - by rewrite bool_decide_true.
    - simpl in Hn. apply not_elem_of_cons in Hn as [Hv Hn].
      rewrite bool_decide_false by (intros E; apply Hv; by rewrite E).
      by rewrite IH. }
  cbn [mbind option_bind].
  assert (Nat.leb (length (tt_players t)) (current_player_index t) = false) as ->
    by (apply Nat.leb_gt; lia).
  rewrite filter_app, filter_name_absent by done.
  rewrite filter_cons_False by tauto. rewrite filter_nil, app_nil_r.
  by destruct t.
Qed.

(** X6: in the five-in-a-row engine, when the first player of a rotation of
    at least three (distinct names) sends a malformed move, it is eliminated
    and the turn goes to the third player of the rotation. *)
Theorem gomoku_first_player_rejected_skips_second (g : Gomoku.Game) (a b c : User)
    (rest : list User) :
  tt_players (Gomoku.players g) = a :: b :: c :: rest ->
  NoDup (map name (a :: b :: c :: rest)) ->
  exists g' t, Gomoku.player_moves g (mkTurnToken a) MoveOther =
    Some (g', PlayerMoveResult.InvalidFormat (Some t)) /\ user (token t) = c.
Proof.
  intros Ep Hnd.
  unfold Gomoku.player_moves, Gomoku.eliminate. cbn [Gomoku.to_player_move user].
  destruct (Gomoku.players g) as [ps cur] eqn:Eg. cbn [tt_players] in Ep. subst ps.
  destruct (tt_remove_first_player a b c rest cur Hnd) as (t' & Er & _ & Ea).
  rewrite Er. cbn [mbind option_bind]. rewrite Ea. cbn.
  do 2 eexists. split; reflexivity.
Qed.


(* ================================================================== *)
(** * Further properties of the player registry ([player_table.rs]) *)

Lemma remove_loop_absent (n : string) (idx cur : nat) (l : list PlayerInfo) :
  n ∉ map pi_name l -> remove_loop n idx cur l = (l, cur).
Proof.
  revert idx. induction l as [|p l IH]; intros idx Hn; [done |].
  simpl in Hn. apply not_elem_of_cons in Hn as [Hp Hn].
  simpl. rewrite bool_decide_false by (intros E; apply Hp; by rewrite E).
  by rewrite IH.
Qed.

Lemma remove_loop_split (n : string) (idx cur : nat) (l1 l2 : list PlayerInfo) (q : PlayerInfo) :
  n ∉ map pi_name l1 -> n ∉ map pi_name l2 -> pi_name q = n ->
  remove_loop n idx cur (l1 ++ q :: l2) =
    (l1 ++ l2, if Nat.ltb (idx + length l1) cur then (cur - 1)%nat else cur).
Proof.
  revert idx. induction l1 as [|p l1 IH]; intros idx H1 H2 Hq.
  - simpl. rewrite bool_decide_true by done. rewrite remove_loop_absent by done.
    by rewrite Nat.add_0_r.
  - simpl in H1. apply not_elem_of_cons in H1 as [Hp H1].
    simpl. rewrite bool_decide_false by (intros E; apply Hp; by rewrite E).
    rewrite IH by done. simpl. by rewrite Nat.add_succ_r.
Qed.

Lemma NoDup_names_split (l : list PlayerInfo) (n : string) :
  NoDup (map pi_name l) -> n ∈ map pi_name l ->
  exists l1 q l2, l = l1 ++ q :: l2 /\ pi_name q = n /\
    (n ∉ map pi_name l1) /\ (n ∉ map pi_name l2).
Proof.
  intros Hnd Hn.
  apply list_elem_of_In, in_map_iff in Hn as [q [Hq Hin]].
  apply list_elem_of_In, list_elem_of_split in Hin as [l1 [l2 ->]].
  exists l1, q, l2. rewrite map_app in Hnd. simpl in Hnd.
  apply NoDup_app in Hnd as [H1 [Hdis H2]].
  apply NoDup_cons in H2 as [Hq2 _].
  split; [done |]. split; [done |]. split; [| by rewrite <- Hq].
  intros Hn1. apply (Hdis n Hn1). rewrite <- Hq. by left.
Qed.

(** X7: with distinct names in the registry, [PlayerTable::remove_player]
    keeps the current entry current when another entry is removed (the index
    moves one left when the removed entry was before it); when the current
    entry itself is removed, the entry after it becomes current. *)
Theorem pt_remove_player_current (t : PlayerTable) (n : string) (p : PlayerInfo) :
  NoDup (map pi_name (pt_players t)) -> pt_current t = Some p ->
  pt_current (remove_player t n).2 =
    if bool_decide (pi_name p = n) then pt_players t !! S (current_index t) else Some p.
Proof.
  unfold pt_current, remove_player. intros Hnd Hp.
  destruct (decide (n ∈ map pi_name (pt_players t))) as [Hin|Hout].
  - destruct (NoDup_names_split _ _ Hnd Hin) as (l1 & q & l2 & El & Hq & H1 & H2).
    rewrite El in Hp |- *. rewrite remove_loop_split by done. cbn [snd pt_players current_index].
    set (c := current_index t) in *. set (k := length l1).
    destruct (lt_eq_lt_dec k c) as [[Hlt|Heq]|Hgt].
    + assert (Nat.ltb (0 + k) c = true) as -> by (apply Nat.ltb_lt; lia).
      rewrite lookup_app_r in Hp by lia. rewrite lookup_app_r by lia.
      destruct (c - length l1)%nat as [|j] eqn:Ej; [unfold k in Hlt; lia |].
      simpl in Hp.
      assert (c - 1 - length l1 = j)%nat as -> by lia. rewrite Hp.
      rewrite bool_decide_false; [done |].
      intros Hpn. apply H2. rewrite <- Hpn. apply list_elem_of_In, in_map_iff.
      exists p. split; [done |]. apply list_elem_of_In. by eapply list_elem_of_lookup_2.
    + assert (Nat.ltb (0 + k) c = false) as -> by (apply Nat.ltb_ge; lia).
      rewrite lookup_app_r in Hp by lia. unfold k in Heq. rewrite Heq, Nat.sub_diag in Hp.
      injection Hp as <-. rewrite bool_decide_true by done.
      rewrite !lookup_app_r by lia. rewrite <- Heq.
      assert (S (length l1) - length l1 = 1)%nat as -> by lia.
      by rewrite Nat.sub_diag.
    + assert (Nat.ltb (0 + k) c = false) as -> by (apply Nat.ltb_ge; lia).
      rewrite lookup_app_l in Hp by lia. rewrite lookup_app_l by lia.
      rewrite Hp. rewrite bool_decide_false; [done |].
      intros Hpn. apply H1. rewrite <- Hpn. apply list_elem_of_In, in_map_iff.
      exists p. split; [done |]. apply list_elem_of_In. by eapply list_elem_of_lookup_2.
  - rewrite remove_loop_absent by done. cbn [snd pt_players current_index].
    rewrite Hp. rewrite bool_decide_false; [done |].
    intros Hpn. apply Hout. rewrite <- Hpn. apply list_elem_of_In, in_map_iff.
    exists p. split; [done |]. apply list_elem_of_In. by eapply list_elem_of_lookup_2.
Qed.

(** X8: [PlayerTable::remove_current] panics exactly when the index is out
    of range; otherwise it removes one entry, and the entry that followed the
    removed one in the cyclic order becomes current (none once the table is
    empty). *)
Theorem pt_remove_current_next (t : PlayerTable) :
  (pt_remove_current t = None <-> (length (pt_players t) <= current_index t)%nat) /\
  forall t', pt_remove_current t = Some t' ->
    length (pt_players t') = (length (pt_players t) - 1)%nat /\
    pt_current t' =
      if Nat.eqb (length (pt_players t)) 1 then None
      else pt_players t !! ((current_index t + 1) mod length (pt_players t))%nat.
Proof.
  unfold pt_remove_current. split.
  - case_bool_decide as Hb; split; intros Hx; try done; lia.
  - intros t'. case_bool_decide as Hc; [| done]. intros [= <-].
    set (l := pt_players t) in *. set (c := current_index t) in *.
    assert (length (take c l ++ drop (S c) l) = length l - 1)%nat as Hlen.
    { rewrite length_app, length_take, length_drop. lia. }
    split; [done |].
    unfold pt_current. cbn [pt_players current_index]. rewrite Hlen.
    destruct (Nat.eqb_spec (length l) 1) as [H1|H1].
    + destruct (Nat.leb _ _); apply lookup_ge_None_2; lia.
    + destruct (Nat.leb_spec (length l - 1) c) as [Hle|Hgt].
      * assert (c = length l - 1)%nat as Hc' by lia.
        assert ((c + 1) mod length l = 0)%nat as ->.
        { rewrite Hc', Nat.sub_add by lia. apply Nat.Div0.mod_same. }
        rewrite lookup_app_l by (rewrite length_take; lia).
        rewrite lookup_take, decide_True by lia. done.
      * rewrite Nat.mod_small by lia.
        rewrite lookup_app_r by (rewrite length_take; lia).
        rewrite length_take, lookup_drop. f_equal. lia.
Qed.

(* ================================================================== *)
(** * Further properties of the five-in-a-row board ([games/gomoku.rs]) *)

Lemma as_i32_le (v : Z) : 0 <= v -> as_i32 v <= v.
Proof.
  intros Hv. unfold as_i32.
  pose proof (Z.mod_le v (2 ^ 32) Hv ltac:(lia)).
  destruct (Z_lt_dec _ _); lia.
Qed.

Lemma board_index_inj (w X Y X' Y' : Z) :
  0 <= X < w -> 0 <= X' < w -> 0 <= Y -> 0 <= Y' ->
  Y * w + X = Y' * w + X' -> X = X' /\ Y = Y'.
Proof.
  intros HX HX' HY HY' E.
  destruct (Z.lt_trichotomy Y Y') as [Hl|[->|Hg]].
  - exfalso. assert (Y * w + w <= Y' * w) by nia. lia.
  - lia.
  - exfalso. assert (Y' * w + w <= Y * w) by nia. lia.
Qed.

Lemma Board_set_other (b : Board) (X Y X' Y' : Z) (c c0 : Cell) :
  0 <= width b -> Board_at b X Y = Some c0 -> (X', Y') <> (X, Y) ->
  Board_at (Board_set b X Y c) X' Y' = Board_at b X' Y'.
Proof.
  unfold Board_at, Board_set. cbn [cells width height]. intros Hw.
  pose proof (as_i32_le (width b) Hw).
  case_bool_decide as Hr; [done |]. intros _ Hne.
  case_bool_decide as Hr'; [done |].
  rewrite list_lookup_insert_ne; [done |].
  intros E. apply Z2Nat.inj in E; [| lia | lia].
  apply board_index_inj in E; [| lia | lia | lia | lia].
  apply Hne. destruct E as [-> ->]. done.
Qed.

Lemma stones_insert (l : list Cell) (i : nat) (u : User) :
  l !! i = Some Empty ->
  length (filter (fun c => c ≠ Empty) (<[i := Occupied u]> l)) =
    S (length (filter (fun c => c ≠ Empty) l)).
Proof.
  revert i. induction l as [|c l IH]; intros i Hi; [done |].
  destruct i as [|i]; simpl in Hi |- *.
  - injection Hi as ->. rewrite (filter_cons_False _ Empty) by tauto. done.
  - rewrite !filter_cons. destruct (decide (c ≠ Empty)); simpl; rewrite IH; done.
Qed.

(** [Board::try_place] on a board of non-negative width: what it changes. *)
Lemma try_place_spec (b : Board) (u : User) (x y : Z) :
  0 <= width b ->
  let '(b', r) := try_place b u x y in
  width b' = width b /\ height b' = height b /\
  (r = PlaceResult.InvalidMove <-> Board_at b (as_i32 x) (as_i32 y) <> Some Empty) /\
  (r = PlaceResult.InvalidMove -> b' = b) /\
  (r <> PlaceResult.InvalidMove ->
     Board_at b' (as_i32 x) (as_i32 y) = Some (Occupied u) /\
     (forall X Y, (X, Y) <> (as_i32 x, as_i32 y) -> Board_at b' X Y = Board_at b X Y) /\
     stones b' = S (stones b)).
Proof.
  intros Hw. unfold try_place.
  destruct (Board_at b (as_i32 x) (as_i32 y)) as [[|v]|] eqn:Ea.
  - pose proof (check_for_win_around_valid (Board_set b (as_i32 x) (as_i32 y) (Occupied u)) x y).
    split; [done |]. split; [done |]. split; [split; [done | congruence] |].
    split; [done |]. intros _. split; [| split].
    + by apply Board_set_at.
    + intros X Y Hne. by eapply Board_set_other.
    + unfold stones, Board_set. cbn [cells]. apply stones_insert.
      unfold Board_at in Ea. by case_bool_decide.
  - repeat split; try done; congruence.
  - repeat split; try done; congruence.
Qed.

(** X9: [Board::try_place] rejects a move exactly when the target is not an
    empty cell of the board, and then leaves the board as it was; otherwise it
    puts the player's stone on the target, changes no other cell, and adds one
    stone to the board. *)
Theorem try_place_frame (b : Board) (u : User) (x y : Z) :
  0 <= width b ->
  let '(b', r) := try_place b u x y in
  width b' = width b /\ height b' = height b /\
  (r = PlaceResult.InvalidMove <-> Board_at b (as_i32 x) (as_i32 y) <> Some Empty) /\
  (r = PlaceResult.InvalidMove -> b' = b) /\
  (r <> PlaceResult.InvalidMove ->
     Board_at b' (as_i32 x) (as_i32 y) = Some (Occupied u) /\
     (forall X Y, (X, Y) <> (as_i32 x, as_i32 y) -> Board_at b' X Y = Board_at b X Y) /\
     stones b' = S (stones b)).
Proof. apply try_place_spec. Qed.

(** X10: on a full board every move is rejected and the board is left as it
    was. *)
Theorem full_board_rejects (b : Board) (u : User) (x y : Z) :
  is_full b = true -> try_place b u x y = (b, PlaceResult.InvalidMove).
Proof.
  unfold is_full, try_place. intros Hf.
  destruct (Board_at b (as_i32 x) (as_i32 y)) as [[|v]|] eqn:Ea; [| done | done].
  exfalso. apply negb_true_iff, not_true_iff_false in Hf. apply Hf.
  apply existsb_exists. exists Empty. split; [| by rewrite bool_decide_true].
  unfold Board_at in Ea. case_bool_decide; [done |].
  apply list_elem_of_In. by eapply list_elem_of_lookup_2.
Qed.

(** X11: a move the five-in-a-row engine accepts (an [Ok], a [Win] or a
    [Draw]) leaves the rotation's players as they were and adds one stone to
    the board; on a [Win], the mover is recorded as the winner. *)
Theorem gomoku_accepted_move_keeps_rotation (g g' : Gomoku.Game) (tok : TurnToken)
    (pm : PlayerMove) (r : PlayerMoveResult.t) :
  0 <= width (Gomoku.board g) ->
  Gomoku.player_moves g tok pm = Some (g', r) ->
  (match r with
   | PlayerMoveResult.InvalidMove _ | PlayerMoveResult.InvalidFormat _ => False
   | _ => True end) ->
  tt_players (Gomoku.players g') = tt_players (Gomoku.players g) /\
  stones (Gomoku.board g') = S (stones (Gomoku.board g)) /\
  (r = PlayerMoveResult.Win -> exists fl, Gomoku.winner g' = Some (user tok, fl)).
Proof.
  intros Hw. unfold Gomoku.player_moves.
  destruct (Gomoku.to_player_move pm) as [[x y]|].
  2: { destruct (Gomoku.eliminate g (user tok)) as [[g2 next]|]; cbn; [| done].
       intros [= _ <-]. done. }
  unfold Gomoku.make_move. cbn [fst snd].
  pose proof (try_place_spec (Gomoku.board g) (user tok) x y Hw) as Hf.
  destruct (try_place (Gomoku.board g) (user tok) x y) as [b' pr].
  destruct Hf as (_ & _ & _ & _ & Hv).
  destruct pr as [|fl|]; cbn.
  - destruct (is_full b'); cbn.
    + intros [= <- <-] _. cbn. split; [done |]. split; [by apply Hv |]. done.
    + unfold tt_advance_player. cbn.
      destruct (tt_players (Gomoku.players g)) eqn:Ep; cbn; [done |].
      destruct (_ !! _); cbn; [| done]. intros [= <- <-] _. cbn.
      split; [done |]. split; [by apply Hv |]. done.
  - intros [= <- <-] _. cbn. split; [done |]. split; [by apply Hv |].
    intros _. by exists fl.
  - destruct (Gomoku.eliminate _ _) as [[g2 next]|]; cbn; [| done].
    intros [= _ <-]. done.
Qed.

Lemma remove_loop_fst (n : string) (idx cur : nat) (l : list PlayerInfo) :
  (remove_loop n idx cur l).1 = filter (fun p => pi_name p ≠ n) l.
Proof.
  revert idx cur. induction l as [|p l IH]; intros idx cur; [done |].
  simpl. rewrite filter_cons. case_bool_decide as Hp.
  - rewrite decide_False by tauto. apply IH.
  - rewrite decide_True by done.
    destruct (remove_loop n (S idx) cur l) as [kept c] eqn:E. simpl.
    f_equal. specialize (IH (S idx) cur). rewrite E in IH. done.
Qed.

Lemma names_filter_sub (P : PlayerInfo -> Prop) `{forall p, Decision (P p)}
    (l : list PlayerInfo) (m : string) :
  m ∈ map pi_name (filter P l) -> m ∈ map pi_name l.
Proof.
  induction l as [|p l IH]; [done |]. rewrite filter_cons.
  case_decide; simpl; rewrite !elem_of_cons; [| tauto].
  intros [->|Hm]; [by left | right; by apply IH].
Qed.

Lemma NoDup_names_filter (P : PlayerInfo -> Prop) `{forall p, Decision (P p)}
    (l : list PlayerInfo) :
  NoDup (map pi_name l) -> NoDup (map pi_name (filter P l)).
Proof.
  induction l as [|p l IH]; intros Hnd; [done |].
  simpl in Hnd. apply NoDup_cons in Hnd as [Hp Hnd].
  rewrite filter_cons. case_decide; simpl; [| by apply IH].
  apply NoDup_cons. split; [| by apply IH].
  intros Hin. apply Hp. by eapply names_filter_sub.
Qed.

Lemma NoDup_names_inj (l : list PlayerInfo) (p q : PlayerInfo) :
  NoDup (map pi_name l) -> p ∈ l -> q ∈ l -> pi_name p = pi_name q -> p = q.
Proof.
  intros Hnd Hp Hq E.
  apply list_elem_of_lookup in Hp as [i Hi]. apply list_elem_of_lookup in Hq as [j Hj].
  assert (i = j) as <-.
  { eapply NoDup_lookup; [exact Hnd | |].
    - rewrite list_lookup_fmap, Hi. reflexivity.
    - rewrite list_lookup_fmap, Hj. simpl. by rewrite E. }
  congruence.
Qed.

Lemma filter_ext_in {B : Type} (P Q : B -> Prop) `{forall x, Decision (P x)}
    `{forall x, Decision (Q x)} (l : list B) :
  (forall x, x ∈ l -> P x <-> Q x) -> filter P l = filter Q l.
Proof.
  induction l as [|x l IH]; intros Hpq; [done |].
  rewrite !filter_cons.
  assert (P x <-> Q x) as Hx by (apply Hpq; by left).
  rewrite IH by (intros y Hy; apply Hpq; by right).
  destruct (decide (P x)), (decide (Q x)); tauto.
Qed.

Lemma filter_names_out_pi (n : string) (l : list PlayerInfo) :
  n ∉ map pi_name (filter (fun p => pi_name p ≠ n) l).
Proof.
  induction l as [|p l IH]; simpl; [apply not_elem_of_nil |].
  rewrite filter_cons. case_decide as Hp; simpl; [| done].
  rewrite elem_of_cons. intros [Heq|Hin]; [by apply Hp | done].
Qed.

Lemma remove_player_players (t : PlayerTable) (n : string) :
  pt_players (remove_player t n).2 = filter (fun p => pi_name p ≠ n) (pt_players t).
Proof.
  unfold remove_player.
  pose proof (remove_loop_fst n 0 (current_index t) (pt_players t)) as Hk.
  destruct (remove_loop n 0 (current_index t) (pt_players t)). done.
Qed.

Lemma add_new_player_players (t : PlayerTable) (n : string) (ch : ChanId) :
  exists p, pi_name p = n /\ tx p = ch /\
    pt_players (add_new_player t n ch).2 = filter (fun p => pi_name p ≠ n) (pt_players t) ++ [p].
Proof.
  unfold add_new_player. destruct (PaintBucket_get _ n) as [col bucket].
  exists (mkPlayerInfo n col ch). split; [done | split; [done |]].
  cbn [snd pt_players]. by rewrite remove_player_players.
Qed.

Lemma reachable_names_nodup (t : PlayerTable) :
  reachable_table t -> NoDup (map pi_name (pt_players t)).
Proof.
  induction 1 as [|t n ch Ht IH|t n Ht IH].
  - constructor.
  - destruct (add_new_player_players t n ch) as (p & Hp & _ & ->).
    rewrite map_app. apply NoDup_app. split; [by apply NoDup_names_filter |].
    split; [| simpl; apply NoDup_singleton].
    intros m Hm Hm'. simpl in Hm'. apply list_elem_of_singleton in Hm'. subst m.
    rewrite Hp in Hm. revert Hm. apply filter_names_out_pi.
  - rewrite remove_player_players. by apply NoDup_names_filter.
Qed.

(** X12: a table reachable from [PlayerTable::new] by [add_new_player] and
    [remove_player] never holds two entries of the same name:
    [add_new_player] drops the stale entry before pushing the new one. *)
Theorem registry_names_unique (t : PlayerTable) :
  reachable_table t -> NoDup (map pi_name (pt_players t)).
Proof. apply reachable_names_nodup. Qed.

Lemma fold_remove_players (ns : list string) (t : PlayerTable) :
  pt_players (fold_left (fun t n => (remove_player t n).2) ns t) =
    filter (fun p => pi_name p ∉ ns) (pt_players t).
Proof.
  revert t. induction ns as [|n ns IH]; intros t; simpl.
  - induction (pt_players t) as [|p l IHl]; [done |].
    rewrite filter_cons_True by apply not_elem_of_nil. by rewrite <- IHl.
  - rewrite IH, remove_player_players, list_filter_filter.
    apply filter_ext_in. intros p _. rewrite not_elem_of_cons. tauto.
Qed.

(** X13: on a registry with distinct names, [send_to_all] keeps exactly the
    players whose channel is open, in their order. *)
Theorem send_to_all_keeps_live (alive : ChanId -> bool) (pt : PlayerTable) :
  NoDup (map pi_name (pt_players pt)) ->
  pt_players (send_to_all alive pt) = filter (fun p => alive (tx p) = true) (pt_players pt).
Proof.
  intros Hnd. unfold send_to_all. rewrite fold_remove_players.
  apply filter_ext_in. intros p Hp. split.
  - intros Hn. destruct (alive (tx p)) eqn:Ea; [done |]. exfalso. apply Hn.
    apply list_elem_of_In, in_map_iff. exists p. split; [done |].
    apply list_elem_of_In, list_elem_of_filter. rewrite Ea. done.
  - intros Ha Hn. apply list_elem_of_In, in_map_iff in Hn as [q [Hq Hin]].
    apply list_elem_of_In, list_elem_of_filter in Hin as [Hdead Hq'].
    assert (q = p) as -> by (eapply NoDup_names_inj; eauto).
    rewrite Ha in Hdead. done.
Qed.

(** ** The outstanding turn over runs where channels close (C5) *)

(** A run with every channel's status fixed is the run in which each
    event comes with that same status. *)
Lemma controller_run_fixed {G : Type} `{GameTrait G} (game_maker : list User -> G)
    (alive : ChanId -> bool) (s : Controller G) (evs : list Event) :
  controller_run game_maker alive s evs = controller_run_dyn game_maker s (map (pair alive) evs).
Proof.
  revert s. induction evs as [|ev evs IH]; intros s; simpl; [done |].
  destruct (event_enabled s ev); [| apply IH].
  destruct (controller_step game_maker alive s ev); simpl; [apply IH | done].
Qed.

Lemma turn_inv_run_dyn {G : Type} `{GameTrait G} (game_maker : list User -> G)
    (s s' : Controller G) (evs : list ((ChanId -> bool) * Event)) :
  turn_inv s -> controller_run_dyn game_maker s evs = Some s' -> turn_inv s'.
Proof.
  revert s. induction evs as [|[alive ev] evs IH]; intros s Hs; simpl; [by intros [= <-] |].
  destruct (event_enabled s ev); [| by apply IH].
  destruct (controller_step game_maker alive s ev) as [s1|] eqn:E; simpl; [| done].
  apply IH. by eapply turn_inv_step.
Qed.

Lemma add_new_player_spec (t : PlayerTable) (n : string) (ch : ChanId) :
  pi_name (add_new_player t n ch).1 = n /\ tx (add_new_player t n ch).1 = ch /\
  pt_players (add_new_player t n ch).2
    = filter (fun p => pi_name p ≠ n) (pt_players t) ++ [(add_new_player t n ch).1].
Proof.
  unfold add_new_player. destruct (PaintBucket_get _ n) as [col bucket].
  split; [done | split; [done |]].
  cbn [fst snd pt_players]. by rewrite remove_player_players.
Qed.

(** The first connect, on an engine that starts a game for its first
    player, hands that player the turn when its channel is open. *)
Lemma connect_first_turn {G : Type} `{GameTrait G} (game_maker : list User -> G)
    (a0 : ChanId -> bool) (n0 : string) (ch0 : ChanId) :
  (forall u, exists g t,
     try_start_game (player_connected (game_maker []) u) = Some (g, Some t) /\ user (token t) = u) ->
  a0 ch0 = true ->
  exists s1 rx tok,
    controller_step game_maker a0 (controller_init game_maker) (ev_connect n0 ch0) = Some s1 /\
    p_move_rx s1 = Some rx /\ turn_token s1 = Some tok /\ name (user tok) = n0.
Proof.
  intros Hstart Ha.
  destruct (add_new_player_spec PlayerTable_new n0 ch0) as (Hn & Hch & Hpl).
  cbn [pt_players filter list_filter] in Hpl. simpl in Hpl.
  unfold controller_step, ev_connect, on_connected. cbn [controller_init p_move_rx players game].
  destruct (add_new_player PlayerTable_new n0 ch0) as [p pt]. cbn [fst snd] in Hn, Hch, Hpl.
  destruct (Hstart (player_info_to_user p)) as (g1 & t & Ht & Hu).
  rewrite Ht. cbn [mbind option_bind].
  unfold dispatch, dispatch_fuel. cbn [your_turn controller_init controller_info].
  rewrite Hu. cbn [is_gating ControllerInfo_default game_mode player_info_to_user name].
  unfold pt_get. rewrite Hpl. cbn [find]. rewrite bool_decide_true by done.
  cbn [mbind option_bind]. rewrite Hch, Ha.
  eexists _, _, _. split; [reflexivity |]. cbn.
  split; [reflexivity | split; [reflexivity |]]. by rewrite Hu.
Qed.

(** A connect while a turn is outstanding leaves the turn as it is. *)
Lemma connect_keeps_turn {G : Type} `{GameTrait G} (game_maker : list User -> G)
    (alive : ChanId -> bool) (s : Controller G) (n : string) (ch : ChanId)
    (rx : MoveReceiver) (tok : TurnToken) :
  p_move_rx s = Some rx -> turn_token s = Some tok ->
  exists s1, controller_step game_maker alive s (ev_connect n ch) = Some s1 /\
    p_move_rx s1 = Some rx /\ turn_token s1 = Some tok.
Proof.
  intros Hrx Htok. unfold controller_step, ev_connect, on_connected.
  destruct (add_new_player (players s) n ch) as [p pt]. rewrite Hrx.
  eexists. split; [reflexivity |]. cbn. by rewrite Htok.
Qed.

Lemma connects_keep_turn {G : Type} `{GameTrait G} (game_maker : list User -> G)
    (s : Controller G) (cs : list ((ChanId -> bool) * (string * ChanId)))
    (rx : MoveReceiver) (tok : TurnToken) :
  p_move_rx s = Some rx -> turn_token s = Some tok ->
  exists s', controller_run_dyn game_maker s (connect_events cs) = Some s' /\
    p_move_rx s' = Some rx /\ turn_token s' = Some tok.
Proof.
  revert s. induction cs as [|[a [n ch]] cs IH]; intros s Hrx Htok; simpl.
  - by exists s.
  - destruct (connect_keeps_turn game_maker a s n ch rx tok Hrx Htok) as (s1 & E & Hrx1 & Htok1).
    rewrite E. cbn [mbind option_bind]. by apply IH.
Qed.

(** C5: in every state the loop reaches, whichever channels close between
    events, a pending move receiver goes with a turn token whose user is
    in the player registry. With the five-in-a-row engine, the first
    connect's [try_start_game] yields a turn; and after any sequence of
    N >= 1 connects, the first player's channel being open when its turn
    is sent (its handler waits for that message), exactly one turn is
    outstanding, held by the first player, who is registered. *)
Theorem outstanding_turn_registered :
  (forall (G : Type) (HG : GameTrait G) (game_maker : list User -> G)
          (evs : list ((ChanId -> bool) * Event)) (s : Controller G),
     controller_run_dyn game_maker (controller_init game_maker) evs = Some s ->
     forall rx, p_move_rx s = Some rx ->
     exists tok, turn_token s = Some tok /\ registered (players s) (name (user tok))) /\
  (forall u : User, exists g t,
     Gomoku.try_start_game (Gomoku.player_connected (gomoku_maker []) u) = Some (g, Some t)) /\
  (forall (a0 : ChanId -> bool) (n0 : string) (ch0 : ChanId)
          (rest : list ((ChanId -> bool) * (string * ChanId))),
     a0 ch0 = true ->
     exists s rx tok,
       gomoku_run_dyn (connect_events ((a0, (n0, ch0)) :: rest)) = Some s /\
       p_move_rx s = Some rx /\ turn_token s = Some tok /\
       name (user tok) = n0 /\ registered (players s) n0).
Proof.
  assert (forall (G : Type) (HG : GameTrait G) (game_maker : list User -> G)
            (evs : list ((ChanId -> bool) * Event)) (s : Controller G),
     controller_run_dyn game_maker (controller_init game_maker) evs = Some s ->
     forall rx, p_move_rx s = Some rx ->
     exists tok, turn_token s = Some tok /\ registered (players s) (name (user tok))) as Hinv.
  { intros G HG game_maker evs s Hrun.
    apply (turn_inv_run_dyn game_maker (controller_init game_maker) s evs); [| exact Hrun].
    intros rx Hrx. discriminate Hrx. }
  split; [exact Hinv | split].
  - intros u. eexists _, _. reflexivity.
  - intros a0 n0 ch0 rest Ha.
    destruct (connect_first_turn gomoku_maker a0 n0 ch0) as (s1 & rx & tok & E1 & Hrx & Htok & Hn);
      [intros u; eexists _, _; split; reflexivity | exact Ha |].
    destruct (connects_keep_turn gomoku_maker s1 rest rx tok Hrx Htok) as (s & Er & Hrx' & Htok').
    assert (gomoku_run_dyn (connect_events ((a0, (n0, ch0)) :: rest)) = Some s) as Hrun.
    { unfold gomoku_run_dyn. cbn [connect_events map fst snd controller_run_dyn].
      unfold ev_connect in E1 |- *. cbn [event_enabled]. rewrite E1. exact Er. }
    exists s, rx, tok. split; [exact Hrun |]. split; [exact Hrx' | split; [exact Htok' |]].
    split; [exact Hn |].
    destruct (Hinv _ _ _ _ s Hrun rx Hrx') as (tok' & Htok'' & Hreg).
    rewrite Htok' in Htok''. injection Htok'' as <-. by rewrite <- Hn.
Qed.

Section RegistryInvariant.
Context {G : Type} `{GameTrait G}.
Variable game_maker : list User -> G.
Variable alive : ChanId -> bool.

Lemma send_to_all_reachable (pt : PlayerTable) :
  reachable_table pt -> reachable_table (send_to_all alive pt).
Proof.
  unfold send_to_all. generalize (map pi_name (filter (fun p => negb (alive (tx p))) (pt_players pt))).
  intros ns. revert pt. induction ns as [|n ns IH]; intros pt Hpt; simpl; [done |].
  apply IH. by constructor.
Qed.

Lemma react_players (who : string) (res : PlayerMoveResult.t) (g g' : G)
    (ci ci' : ControllerInfo) (pt pt' : PlayerTable) (err : bool) (ret : PlayerMovesReturn) :
  react_to_player_move alive who res g ci pt err = Some (g', ci', pt', ret) ->
  pt' = pt \/ pt' = send_to_all alive pt.
Proof.
  destruct res as [t| | |next|next]; simpl.
  - destruct (dispatch alive pt g (token t) (state t) ci) as [[g1 r]|]; simpl; [| done].
    intros [= _ _ <- _]. by left.
  - intros [= _ _ <- _]. by right.
  - intros [= _ _ <- _]. by right.
  - unfold react_rejection. destruct err; simpl; [| done].
    destruct next as [t|]; [| intros [= _ _ <- _]; by left].
    destruct (dispatch alive pt g (token t) (state t) ci) as [[g1 r]|]; simpl; [| done].
    intros [= _ _ <- _]. by left.
  - unfold react_rejection. destruct err; simpl; [| done].
    destruct next as [t|]; [| intros [= _ _ <- _]; by left].
    destruct (dispatch alive pt g (token t) (state t) ci) as [[g1 r]|]; simpl; [| done].
    intros [= _ _ <- _]. by left.
Qed.

Lemma registry_step (s s' : Controller G) (ev : Event) :
  reachable_table (players s) -> controller_step game_maker alive s ev = Some s' ->
  reachable_table (players s').
Proof.
  intros Hreg. unfold controller_step.
  destruct (match ev with
            | Ev_ControllerMsg (ImConnected n ch) => on_connected alive s n ch
            | Ev_ControllerMsg (ImDisconnected n) => on_disconnected alive s n
            | Ev_ControllerMsg (GoToMode m) => on_go_to_mode game_maker alive s m
            | Ev_ControllerMsg ResetGame => Some s
            | Ev_ControllerMsg (SetTurnDelay d) => _
            | Ev_ControllerMsg (SetWinDelay d) => _
            | Ev_Move pm => on_move game_maker alive s pm
            | Ev_PlayerMoveDropped => Some s
            end) as [s1|] eqn:E; simpl; [| done].
  intros [= <-]. cbn [publish players].
  destruct ev as [[n ch|n|m| |d|d]|pm|].
  - unfold on_connected in E.
    pose proof (rt_add (players s) n ch Hreg) as Hadd.
    destruct (add_new_player (players s) n ch) as [np pt] eqn:Ea. cbn [snd] in Hadd.
    destruct (p_move_rx s) as [rx0|].
    + by inversion E; subst s1.
    + destruct (try_start_game _) as [[g1 [t|]]|]; simpl in E; [| | done].
      * destruct (dispatch alive pt g1 (token t) (state t) (controller_info s))
          as [[g2 r]|]; simpl in E; [| done].
        by inversion E; subst s1.
      * by inversion E; subst s1.
  - unfold on_disconnected in E.
    destruct (turn_token s) as [tok|]; [| by inversion E; subst s1].
    case_bool_decide.
    + destruct (current_player_disconnected (game s) tok) as [[g1 [t|]]|]; simpl in E;
        [| | done].
      * destruct (dispatch alive (players s) g1 (token t) (state t) (controller_info s))
          as [[g2 r]|]; simpl in E; [| done].
        by inversion E; subst s1.
      * by inversion E; subst s1.
    + pose proof (rt_remove (players s) n Hreg) as Hrem.
      destruct (remove_player (players s) n) as [removed pt] eqn:Er. cbn [snd] in Hrem.
      destruct (if removed then player_disconnected (game s) n else Some (game s))
        as [g1|]; simpl in E; [| done].
      by inversion E; subst s1.
  - unfold on_go_to_mode in E.
    destruct (if is_gating (game_mode (controller_info s)) && negb (is_gating m) then _ else _)
      as [s2|] eqn:E2; simpl in E; [| done].
    assert (players s2 = players s) as Hs2.
    { destruct (is_gating (game_mode (controller_info s)) && negb (is_gating m));
        [| by inversion E2].
      destruct (try_start_game _) as [[g1 [t|]]|]; simpl in E2; [| | done].
      - destruct (dispatch alive _ g1 (token t) (state t) _) as [[g2 r]|]; simpl in E2; [| done].
        by inversion E2.
      - by inversion E2. }
    destruct (is_gating (game_mode (controller_info s2))); inversion E; subst s1;
      simpl; by rewrite Hs2.
  - by inversion E; subst s1.
  - by inversion E; subst s1.
  - by inversion E; subst s1.
  - unfold on_move in E.
    destruct (turn_token s) as [tok|]; simpl in E; [| done].
    destruct (player_moves (game s) tok (mov pm)) as [[g1 res]|]; simpl in E; [| done].
    destruct (react_to_player_move alive _ res g1 (controller_info s) (players s) (move_err_open pm))
      as [[[[g2 ci] pt] ret]|] eqn:Er; simpl in E; [| done].
    assert (reachable_table pt) as Hpt.
    { destruct (react_players _ _ _ _ _ _ _ _ _ _ Er) as [->| ->]; [done |].
      by apply send_to_all_reachable. }
    destruct ret as [|rx tok'|].
    + by inversion E; subst s1.
    + by inversion E; subst s1.
    + destruct (first_move_new_game alive _ ci pt) as [[g4 r]|]; simpl in E; [| done].
      by inversion E; subst s1.
  - by inversion E; subst s1.
Qed.

End RegistryInvariant.

Lemma registry_run_dyn {G : Type} `{GameTrait G} (game_maker : list User -> G)
    (s s' : Controller G) (evs : list ((ChanId -> bool) * Event)) :
  reachable_table (players s) -> controller_run_dyn game_maker s evs = Some s' ->
  reachable_table (players s').
Proof.
  revert s. induction evs as [|[alive ev] evs IH]; intros s Hs; simpl; [by intros [= <-] |].
  destruct (event_enabled s ev); [| by apply IH].
  destruct (controller_step game_maker alive s ev) as [s1|] eqn:E; simpl; [| done].
  apply IH. by eapply registry_step.
Qed.

(** X14: in every state the controller loop reaches, whichever channels
    close between events, the registry holds no two players of the same
    name, and the published [connected_users] list is the registry's
    players, in order. *)
Theorem controller_registry_unique {G : Type} `{GameTrait G} (game_maker : list User -> G)
    (evs : list ((ChanId -> bool) * Event)) (s : Controller G) :
  controller_run_dyn game_maker (controller_init game_maker) evs = Some s ->
  NoDup (map pi_name (pt_players (players s))) /\
  connected_users (controller_info s) = map player_info_to_user (pt_players (players s)).
Proof.
  assert (forall s0 evs0, reachable_table (players s0) ->
            connected_users (controller_info s0) = map player_info_to_user (pt_players (players s0)) ->
            controller_run_dyn game_maker s0 evs0 = Some s ->
            connected_users (controller_info s) = map player_info_to_user (pt_players (players s)))
    as Hpub.
  { intros s0 evs0. revert s0. induction evs0 as [|[alive ev] evs0 IH]; intros s0 Hr Hc; simpl;
      [by intros [= <-] |].
    destruct (event_enabled s0 ev); [| by apply IH].
    destruct (controller_step game_maker alive s0 ev) as [s1|] eqn:E; simpl; [| done].
    apply IH; [by eapply registry_step |].
    unfold controller_step in E.
    destruct (match ev with
              | Ev_ControllerMsg (ImConnected n ch) => _ | Ev_ControllerMsg (ImDisconnected n) => _
              | Ev_ControllerMsg (GoToMode m) => _ | Ev_ControllerMsg ResetGame => _
              | Ev_ControllerMsg (SetTurnDelay d) => _ | Ev_ControllerMsg (SetWinDelay d) => _
              | Ev_Move pm => _ | Ev_PlayerMoveDropped => _ end);
      simpl in E; [| done].
    by inversion E. }
  intros Hrun. split.
  - apply reachable_names_nodup. eapply registry_run_dyn; [| exact Hrun]. constructor.
  - eapply Hpub; [| | exact Hrun]; [constructor | done].
Qed.

(** X15: the counter engine on a well-formed [add] move: it panics exactly
    when the [u32] counter would overflow or the rotation is empty; otherwise
    the counter grows by [add], the rotation's players stay as they were, and
    the result is [Ok]. *)
Theorem dumb_add_move (g : Dumb.Game) (tok : TurnToken) (a : Z) :
  0 <= a < 2 ^ 32 ->
  (Dumb.player_moves g tok (MoveAdd a) = None <->
     2 ^ 32 <= Dumb.count g + a \/ tt_players (Dumb.players g) = []) /\
  forall g' r, Dumb.player_moves g tok (MoveAdd a) = Some (g', r) ->
    Dumb.count g' = Dumb.count g + a /\
    tt_players (Dumb.players g') = tt_players (Dumb.players g) /\
    exists t, r = PlayerMoveResult.Ok t.
Proof.
  intros Ha. unfold Dumb.player_moves, Dumb.to_player_move.
  rewrite bool_decide_true by done. unfold Dumb.make_move.
  case_bool_decide as Hc; cbn [mbind option_bind].
  - unfold tt_advance_player. cbn [Dumb.players].
    destruct (tt_players (Dumb.players g)) as [|u l] eqn:Ep; cbn [mbind option_bind].
    + split; [split; [intros _; by right | done] | intros ? ? [=]].
    + destruct ((u :: l) !! _) eqn:El.
      * cbn. split; [split; [intros [=] | intros [Hx|Hx]; [lia | done]] |].
        intros g' r [= <- <-]. cbn. split; [done |]. split; [done |]. by eexists.
      * exfalso. apply lookup_ge_None in El.
        pose proof (Nat.mod_upper_bound (current_player_index (Dumb.players g) + 1)
                      (length (u :: l)) ltac:(simpl; lia)). lia.
  - split; [split; [intros _; left; lia | done] | intros ? ? [=]].
Qed.

(* ================================================================== *)
(** * Witnesses of the further properties *)

Lemma tt_remove_player_keeps_turn_witness :
  NoDup (tt_names (mkTurnTracker [player1; player2; player3] 2)) /\
  exists t', tt_remove_player (mkTurnTracker [player1; player2; player3] 2) (name player2) = Some t' /\
    (1%nat <> 2%nat -> tt_players t' !! current_player_index t' = Some player3) /\
    (1%nat = 2%nat -> (tt_advance_player t').2 = Some player1).
Proof.
  assert (NoDup (tt_names (mkTurnTracker [player1; player2; player3] 2))) as Hnd
    by (apply (bool_decide_unpack _); vm_compute; reflexivity).
  split; [exact Hnd |].
  destruct (tt_remove_player_keeps_turn (mkTurnTracker [player1; player2; player3] 2) 1 player2
              Hnd eq_refl ltac:(lia) ltac:(simpl; lia)) as (t' & E & H1 & H2).
  exists t'. split; [exact E |]. split.
  - intros Hne. rewrite (H1 Hne). reflexivity.
  - intros Heq. rewrite (H2 Heq). reflexivity.
Defined.

Lemma tt_remove_first_player_skips_second_witness :
  NoDup (map name [player1; player2; player3]) /\
  exists t', tt_remove_player (mkTurnTracker [player1; player2; player3] 0) (name player1) = Some t' /\
    tt_players t' = [player2; player3] /\
    tt_advance_player t' = (mkTurnTracker [player2; player3] 1, Some player3).
Proof.
  assert (NoDup (map name [player1; player2; player3])) as Hnd
    by (apply (bool_decide_unpack _); vm_compute; reflexivity).
  split; [exact Hnd |].
  exact (tt_remove_first_player_skips_second player1 player2 player3 [] 0 Hnd).
Defined.

Lemma tt_add_remove_roundtrip_witness :
  (name player2 ∉ tt_names (mkTurnTracker [player1] 0)) /\
  (current_player_index (mkTurnTracker [player1] 0) < length (tt_players (mkTurnTracker [player1] 0)))%nat /\
  tt_remove_player (tt_add_player (mkTurnTracker [player1] 0) player2) (name player2)
    = Some (mkTurnTracker [player1] 0).
Proof.
  assert (name player2 ∉ tt_names (mkTurnTracker [player1] 0)) as Hn
    by (apply (bool_decide_unpack _); vm_compute; reflexivity).
  assert ((current_player_index (mkTurnTracker [player1] 0)
           < length (tt_players (mkTurnTracker [player1] 0)))%nat) as Hc by (simpl; lia).
  split; [exact Hn |]. split; [exact Hc |].
  exact (tt_add_remove_roundtrip _ _ Hn Hc).
Defined.

Lemma gomoku_first_player_rejected_skips_second_witness :
  tt_players (Gomoku.players (gomoku_maker [player1; player2; player3])) = [player1; player2; player3] /\
  NoDup (map name [player1; player2; player3]) /\
  exists g' t, Gomoku.player_moves (gomoku_maker [player1; player2; player3]) (mkTurnToken player1) MoveOther =
    Some (g', PlayerMoveResult.InvalidFormat (Some t)) /\ user (token t) = player3.
Proof.
  assert (NoDup (map name [player1; player2; player3])) as Hnd
    by (apply (bool_decide_unpack _); vm_compute; reflexivity).
  split; [reflexivity |]. split; [exact Hnd |].
  exact (gomoku_first_player_rejected_skips_second (gomoku_maker [player1; player2; player3])
           player1 player2 player3 [] eq_refl Hnd).
Defined.

Lemma pt_remove_player_current_witness :
  NoDup (map pi_name (pt_players (mkPlayerTable [mkPlayerInfo "a" GRAY 0%nat; mkPlayerInfo "b" GRAY 1%nat;
                                                 mkPlayerInfo "c" GRAY 2%nat] 1%nat PaintBucket_new))) /\
  pt_current (mkPlayerTable [mkPlayerInfo "a" GRAY 0%nat; mkPlayerInfo "b" GRAY 1%nat;
                             mkPlayerInfo "c" GRAY 2%nat] 1%nat PaintBucket_new) = Some (mkPlayerInfo "b" GRAY 1%nat) /\
  pt_current (remove_player (mkPlayerTable [mkPlayerInfo "a" GRAY 0%nat; mkPlayerInfo "b" GRAY 1%nat;
                                            mkPlayerInfo "c" GRAY 2%nat] 1%nat PaintBucket_new) "a").2
    = Some (mkPlayerInfo "b" GRAY 1%nat).
Proof.
  assert (NoDup (map pi_name (pt_players (mkPlayerTable [mkPlayerInfo "a" GRAY 0%nat; mkPlayerInfo "b" GRAY 1%nat;
                                                         mkPlayerInfo "c" GRAY 2%nat] 1%nat PaintBucket_new))))
    as Hnd by (apply (bool_decide_unpack _); vm_compute; reflexivity).
  split; [exact Hnd |]. split; [reflexivity |].
  rewrite (pt_remove_player_current _ "a" (mkPlayerInfo "b" GRAY 1%nat) Hnd eq_refl).
  reflexivity.
Defined.

Lemma try_place_frame_witness :
  0 <= width (Gomoku.board (gomoku_maker [])) /\
  let '(b', r) := try_place (Gomoku.board (gomoku_maker [])) player1 3 4 in
  width b' = width (Gomoku.board (gomoku_maker [])) /\
  height b' = height (Gomoku.board (gomoku_maker [])) /\
  (r = PlaceResult.InvalidMove <->
     Board_at (Gomoku.board (gomoku_maker [])) (as_i32 3) (as_i32 4) <> Some Empty) /\
  (r = PlaceResult.InvalidMove -> b' = Gomoku.board (gomoku_maker [])) /\
  (r <> PlaceResult.InvalidMove ->
     Board_at b' (as_i32 3) (as_i32 4) = Some (Occupied player1) /\
     (forall X Y, (X, Y) <> (as_i32 3, as_i32 4) ->
        Board_at b' X Y = Board_at (Gomoku.board (gomoku_maker [])) X Y) /\
     stones b' = S (stones (Gomoku.board (gomoku_maker [])))).
Proof.
  assert (0 <= width (Gomoku.board (gomoku_maker []))) as Hw by (simpl; lia).
  split; [exact Hw |].
  exact (try_place_frame _ player1 3 4 Hw).
Defined.

Lemma full_board_rejects_witness :
  is_full (mkBoard [Occupied player1] 1 1) = true /\
  try_place (mkBoard [Occupied player1] 1 1) player2 0 0
    = (mkBoard [Occupied player1] 1 1, PlaceResult.InvalidMove).
Proof.
  assert (is_full (mkBoard [Occupied player1] 1 1) = true) as Hf by reflexivity.
  split; [exact Hf |]. exact (full_board_rejects _ player2 0 0 Hf).
Defined.

Lemma gomoku_accepted_move_keeps_rotation_witness :
  0 <= width (Gomoku.board (gomoku_maker [player1; player2])) /\
  match Gomoku.player_moves (gomoku_maker [player1; player2]) (mkTurnToken player1) (MoveXY 0 0) with
  | Some (g', r) =>
      tt_players (Gomoku.players g') = [player1; player2] /\
      stones (Gomoku.board g') = 1%nat
  | None => False
  end.
Proof.
  assert (0 <= width (Gomoku.board (gomoku_maker [player1; player2]))) as Hw by (simpl; lia).
  split; [exact Hw |].
  destruct (Gomoku.player_moves (gomoku_maker [player1; player2]) (mkTurnToken player1) (MoveXY 0 0))
    as [[g' r]|] eqn:E.
  - assert (match r with
            | PlayerMoveResult.InvalidMove _ | PlayerMoveResult.InvalidFormat _ => False
            | _ => True end) as Hr.
    { vm_compute in E. injection E as _ Er. rewrite <- Er. exact I. }
    destruct (gomoku_accepted_move_keeps_rotation _ g' _ _ r Hw E Hr) as (Hp & Hs & _).
    rewrite Hp, Hs. split; reflexivity.
  - vm_compute in E. discriminate E.
Defined.

Lemma registry_names_unique_witness :
  reachable_table (reg_run PlayerTable_new [RegAdd "a" 0%nat; RegAdd "b" 1%nat; RegAdd "a" 2%nat]) /\
  map pi_name (pt_players (reg_run PlayerTable_new [RegAdd "a" 0%nat; RegAdd "b" 1%nat; RegAdd "a" 2%nat]))
    = ["b"; "a"] /\
  NoDup (map pi_name (pt_players (reg_run PlayerTable_new [RegAdd "a" 0%nat; RegAdd "b" 1%nat; RegAdd "a" 2%nat]))).
Proof.
  assert (reachable_table (reg_run PlayerTable_new [RegAdd "a" 0%nat; RegAdd "b" 1%nat; RegAdd "a" 2%nat]))
    as Hr.
  { cbn [reg_run fold_left reg_apply]. apply rt_add, rt_add, rt_add, rt_new. }
  split; [exact Hr | split; [vm_compute; reflexivity | exact (registry_names_unique _ Hr)]].
Defined.

Lemma send_to_all_keeps_live_witness :
  NoDup (map pi_name (pt_players (reg_run PlayerTable_new [RegAdd "a" 0%nat; RegAdd "b" 1%nat]))) /\
  map pi_name (pt_players (send_to_all chan0_closed
                             (reg_run PlayerTable_new [RegAdd "a" 0%nat; RegAdd "b" 1%nat]))) = ["b"].
Proof.
  assert (NoDup (map pi_name (pt_players (reg_run PlayerTable_new [RegAdd "a" 0%nat; RegAdd "b" 1%nat]))))
    as Hnd by (apply (bool_decide_unpack _); vm_compute; reflexivity).
  split; [exact Hnd |].
  rewrite (send_to_all_keeps_live chan0_closed _ Hnd). vm_compute. reflexivity.
Defined.

Lemma dumb_add_move_witness :
  0 <= 5 < 2 ^ 32 /\
  Dumb.player_moves (Dumb.player_connected Dumb.Game_new player1) (mkTurnToken player1) (MoveAdd 5) <> None /\
  forall g' r, Dumb.player_moves (Dumb.player_connected Dumb.Game_new player1) (mkTurnToken player1)
                 (MoveAdd 5) = Some (g', r) ->
    Dumb.count g' = 5.
Proof.
  assert (0 <= 5 < 2 ^ 32) as Ha by lia.
  split; [exact Ha |].
  destruct (dumb_add_move (Dumb.player_connected Dumb.Game_new player1) (mkTurnToken player1) 5 Ha)
    as [Hn Hs].
  split.
  - intros E. apply Hn in E.
    destruct E as [E|E]; vm_compute in E; [apply E; reflexivity | discriminate E].
  - intros g' r E. apply Hs in E. destruct E as [E _]. rewrite E. reflexivity.
Defined.

Lemma controller_registry_unique_witness :
  match gomoku_run_dyn rejection_then_win with
  | Some s =>
      map pi_name (pt_players (players s)) = ["a"] /\
      NoDup (map pi_name (pt_players (players s))) /\
      connected_users (controller_info s) = map player_info_to_user (pt_players (players s))
  | None => False
  end.
Proof.
  destruct (gomoku_run_dyn rejection_then_win) as [s|] eqn:E.
  - pose proof E as E'. vm_compute in E'. injection E' as Es.
    split; [rewrite <- Es; reflexivity |].
    exact (controller_registry_unique gomoku_maker _ s E).
  - vm_compute in E. discriminate E.
Defined.

(** Every turn outstanding along [rejection_then_win] is held by a
    registered player; and after three connects, the first player's
    handler exiting once its turn is sent, that turn is still the one
    outstanding. *)
Lemma outstanding_turn_registered_witness :
  match gomoku_run_dyn rejection_then_win with
  | Some s => exists tok, turn_token s = Some tok /\ registered (players s) (name (user tok))
  | None => False
  end /\
  all_alive 1%nat = true /\
  exists s rx tok,
    gomoku_run_dyn (connect_events [(all_alive, ("a", 1%nat)); (all_alive, ("b", 2%nat));
                                    (close_chan all_alive 1%nat, ("c", 3%nat))]) = Some s /\
    p_move_rx s = Some rx /\ turn_token s = Some tok /\
    name (user tok) = "a" /\ registered (players s) "a".
Proof.
  split; [| split; [reflexivity |]].
  - destruct (gomoku_run_dyn rejection_then_win) as [s|] eqn:E.
    + pose proof E as E'. vm_compute in E'. injection E' as Es.
      assert (p_move_rx s = Some (mkMoveReceiver "a")) as Hrx by (rewrite <- Es; reflexivity).
      exact (proj1 outstanding_turn_registered Gomoku.Game _ gomoku_maker _ s E _ Hrx).
    + vm_compute in E. discriminate E.
  - exact (proj2 (proj2 outstanding_turn_registered) all_alive "a" 1%nat
             [(all_alive, ("b", 2%nat)); (close_chan all_alive 1%nat, ("c", 3%nat))] eq_refl).
Defined.
